(** * A shallow embedding of [table.py], the truth-table compiler

    The development follows the pipeline of [Compiler.compile]:
    [_tokenize], [_split_instructions], [_check_instructions] (with
    [check_valid_recursively]) and [_execute_instructions] (with
    [build_tree_recursively], [Node.eval] and [_show]).

    Python exceptions are modelled by the [result] type; the text printed
    by [print] is modelled as the list of printed lines. *)

From Equations Require Import Equations.
From Stdlib Require Import String Ascii List Bool Arith ZArith Lia Permutation.
Import ListNotations.

Open Scope string_scope.
Open Scope list_scope.
Open Scope nat_scope.

Set Warnings "-register-all".

(** ** Exceptions

    The source raises plain [Exception] objects that differ only by their
    message; one constructor stands for each message template (the
    interpolated position and expression are dropped).  The last three
    constructors are the built-in exceptions the code can run into. *)

Inductive error : Type :=
| LexDigitWord                 (* 'Invalid word starting with a digit' *)
| LexInvalidChar (c : ascii)   (* 'Invalid character: {char}' *)
| InvalidInstruction           (* 'Invalid instruction: {instr}' *)
| DuplicateName                (* 'Variable already declared: {t}', ' already declared: {instr[0]}' *)
| ReservedName                 (* 'Invalid variable name: {t}' *)
| TooManyVariables             (* 'Too many variables declared: ...' *)
| UnknownIdentifier            (* 'Unknown identifier: {t}' *)
| InvalidAssignment            (* 'Invalid assignment {expr}' *)
| EmptyParentheses             (* 'Empty parentheses at position ...' *)
| UnbalancedParentheses        (* 'Unbalanced parentheses in ...' *)
| UnmatchedParenthesis         (* 'Unmatched closing parenthesis at position ...' *)
| InvalidSyntax                (* 'Invalid syntax at position ...' *)
| OperatorConflict             (* 'Conflicts of operators in ...' *)
| InvalidToken                 (* 'Invalid token {token} at position ...' *)
| MalformedNode                (* 'Invalid number of children in {self}' *)
| AlreadyExists                (* '{i[0]} already exists.' *)
| UnboundName (k : string)     (* KeyError: variables[self.value], vars[id] *)
| IndexError.                  (* IndexError: children[0], i[0], i[1] *)

Inductive result (A : Type) : Type :=
| Ok (a : A)
| Raise (e : error).

Arguments Ok {A} a.
Arguments Raise {A} e.

Definition bind {A B : Type} (r : result A) (k : A -> result B) : result B :=
  match r with
  | Ok a => k a
  | Raise e => Raise e
  end.

Notation "x <- r ;; k" := (bind r (fun x => k))
  (at level 61, r at next level, right associativity).

(** [t in l] on Python lists and tuples of strings. *)
Definition mem (t : string) (l : list string) : bool :=
  existsb (String.eqb t) l.

(** ** Lexer: [Compiler._tokenize] *)

Section Lexer.

Definition newline : ascii := Ascii.ascii_of_nat 10.

(** [re.sub(r"#.*\n", "", s)]: from a [#], the greedy [.*] runs over the
    characters other than a newline and the match needs the newline that
    follows them; when the text has no newline after the [#] nothing
    matches there and the [#] stays.  [sub_comments] copies the text
    outside a match, [comment_tail] looks for the newline that closes the
    match begun at a [#]. *)
Fixpoint sub_comments (s : string) : string :=
  match s with
  | EmptyString => EmptyString
  | String c rest =>
      if Ascii.eqb c "#" then
        match comment_tail rest with
        | Some out => out
        | None => String c (sub_comments rest)
        end
      else String c (sub_comments rest)
  end
with comment_tail (s : string) : option string :=
  match s with
  | EmptyString => None
  | String c rest =>
      if Ascii.eqb c newline then Some (sub_comments rest)
      else comment_tail rest
  end.

Definition between (lo hi : nat) (c : ascii) : bool :=
  (lo <=? nat_of_ascii c) && (nat_of_ascii c <=? hi).

(** [[A-Za-z_]] *)
Definition is_word_start (c : ascii) : bool :=
  between 65 90 c || between 97 122 c || Ascii.eqb c "_".

(** [[0-9]] *)
Definition is_digit (c : ascii) : bool := between 48 57 c.

(** [[A-Za-z_0-9]] *)
Definition is_word_char (c : ascii) : bool :=
  is_word_start c || is_digit c.

(** [[ \t\n\r]] *)
Definition is_blank (c : ascii) : bool :=
  Ascii.eqb c " " || Ascii.eqb c (Ascii.ascii_of_nat 9)
  || Ascii.eqb c newline || Ascii.eqb c (Ascii.ascii_of_nat 13).

(** [[()=;]] *)
Definition is_special (c : ascii) : bool :=
  Ascii.eqb c "(" || Ascii.eqb c ")" || Ascii.eqb c "=" || Ascii.eqb c ";".

(** Truth value of a Python string: [word] is true when not empty. *)
Definition truthy (word : string) : bool :=
  match word with
  | EmptyString => false
  | String _ _ => true
  end.

Definition char_str (c : ascii) : string := String c EmptyString.

(** The loop [for char in s] with its two accumulators.  At the end of
    the text the tokens are returned as they are: the source does not
    append a word still in progress. *)
Fixpoint tokenize_loop (s : string) (tokens : list string) (word : string)
  : result (list string) :=
  match s with
  | EmptyString => Ok tokens
  | String char rest =>
      if is_word_start char && negb (truthy word) then
        tokenize_loop rest tokens (word ++ char_str char)%string
      else if is_digit char && negb (truthy word) then
        Raise LexDigitWord
      else if is_word_char char && truthy word then
        tokenize_loop rest tokens (word ++ char_str char)%string
      else if is_blank char then
        if truthy word then tokenize_loop rest (tokens ++ [word]) ""
        else tokenize_loop rest tokens word
      else if is_special char then
        let tokens := if truthy word then tokens ++ [word] else tokens in
        tokenize_loop rest (tokens ++ [char_str char]) ""
      else Raise (LexInvalidChar char)
  end.

Definition _tokenize (s : string) : result (list string) :=
  tokenize_loop (sub_comments s) [] "".

End Lexer.

(** ** Instruction splitter: [Compiler._split_instructions] *)

Section Splitter.

(** The loop [for t in tokens]; the buffer is appended to the
    instructions at a [;] only. *)
Fixpoint split_loop (tokens : list string)
                    (instructions : list (list string))
                    (buffer : list string) : list (list string) :=
  match tokens with
  | [] => instructions
  | t :: rest =>
      if String.eqb t ";" then split_loop rest (instructions ++ [buffer]) []
      else split_loop rest instructions (buffer ++ [t])
  end.

Definition _split_instructions (tokens : list string) : list (list string) :=
  split_loop tokens [] [].

End Splitter.

(** ** Expression validator: [check_valid_recursively] *)

Section Validator.

(** The inner loop [for j in range(i + 1, len(expr))] that looks for the
    parenthesis closing the one at [i].  [rest] is [expr[i + 1:]], [k]
    counts the tokens passed, so that a result [Some k] stands for
    [j = i + 1 + k].  The counter starts at 1 and the loop leaves as soon
    as it is 0, so it never goes below 0. *)
Fixpoint find_close (rest : list string) (open_parens : nat) (k : nat)
  : option nat :=
  match rest with
  | [] => None
  | t :: rest' =>
      let open_parens :=
        if String.eqb t "(" then S open_parens
        else if String.eqb t ")" then Nat.pred open_parens
        else open_parens in
      if Nat.eqb open_parens 0 then Some k
      else find_close rest' open_parens (S k)
  end.

(** [(clause is not None) and (clause != token)] *)
Definition conflicts (clause : option string) (token : string) : bool :=
  match clause with
  | None => false
  | Some c => negb (String.eqb c token)
  end.

Variables declared_vars declared_ids : list string.

(** [expr[i] in declared_vars or expr[i] in declared_ids or
    expr[i] in ('True', 'False')] *)
Definition is_operand (token : string) : bool :=
  mem token declared_vars || mem token declared_ids
  || mem token ["True"; "False"].

(** The [while i < len(expr)] loop of the inner [check_valid]: [expr] is
    the part of the expression from position [i] on, [running] and
    [clause] are the two local variables.  A parenthesised group is
    checked by a call on the slice [expr[i + 1:j]], which starts from
    [running = -1] and [clause = None]. *)
Equations? check_valid (expr : list string) (running : Z)
                      (clause : option string) : result unit
  by wf (length expr) lt :=
  check_valid [] running clause :=
    if (running >? 0)%Z then Raise InvalidAssignment else Ok tt;
  check_valid (token :: rest) running clause :=
    if String.eqb token "(" then
      if (running =? 0)%Z then Raise InvalidAssignment
      else
        match find_close rest 1 0 with
        | Some k =>
            match firstn k rest with
            | [] => Raise EmptyParentheses
            | _ :: _ =>
                match check_valid (firstn k rest) (-1)%Z None with
                | Raise e => Raise e
                | Ok _ => check_valid (skipn (S k) rest) 0%Z clause
                end
            end
        | None => Raise UnbalancedParentheses
        end
    else if String.eqb token ")" then Raise UnmatchedParenthesis
    else if is_operand token then
      if (running =? 0)%Z then Raise InvalidSyntax
      else check_valid rest 0%Z clause
    else if String.eqb token "not" then
      if negb (running =? -1)%Z then Raise InvalidSyntax
      else if conflicts clause token then Raise OperatorConflict
      else check_valid rest 2%Z (Some token)
    else if mem token ["and"; "or"] then
      if negb (running =? 0)%Z then Raise InvalidSyntax
      else if conflicts clause token then Raise OperatorConflict
      else check_valid rest 1%Z (Some token)
    else Raise InvalidToken.
Proof.
  - rewrite length_firstn. lia.
  - destruct rest as [|t rest']; cbn [List.length]; [lia|].
    rewrite length_skipn. lia.
Qed.

Definition check_valid_recursively (expr : list string) : result unit :=
  check_valid expr (-1)%Z None.

End Validator.

(** ** Expression trees: [class Node] *)

(** [Node(value, children)]; a leaf has no children.  The field [_depth]
    only caches the result of [depth()] and is left out. *)
Inductive Node : Type :=
| mkNode (value : string) (children : list Node).

Definition value (n : Node) : string :=
  match n with mkNode v _ => v end.

Definition children (n : Node) : list Node :=
  match n with mkNode _ cs => cs end.

(** Python dictionaries keep their keys in insertion order, and the code
    iterates over them: a dictionary is an association list in which
    [dict_set] overwrites the value of a key already there and appends a
    new key at the end. *)
Section Dict.

Context {V : Type}.

Definition dict : Type := list (string * V).

Fixpoint dict_get (d : dict) (k : string) : option V :=
  match d with
  | [] => None
  | (k', v) :: d' => if String.eqb k' k then Some v else dict_get d' k
  end.

Fixpoint dict_set (d : dict) (k : string) (v : V) : dict :=
  match d with
  | [] => [(k, v)]
  | (k', v') :: d' =>
      if String.eqb k' k then (k', v) :: d' else (k', v') :: dict_set d' k v
  end.

Definition keys (d : dict) : list string := map fst d.

(** [dict(pairs)] *)
Definition dict_of (pairs : list (string * V)) : dict :=
  fold_left (fun d kv => dict_set d (fst kv) (snd kv)) pairs [].

End Dict.

Arguments dict V : clear implicits.

Section Tree.

(** [Node.depth]: 0 without children, else one more than the depth of
    [min(self.children, key=lambda x: x.depth())]. *)
Fixpoint depth (n : Node) : nat :=
  match n with
  | mkNode _ [] => 0
  | mkNode _ (c :: cs) => 1 + fold_left Nat.min (map depth cs) (depth c)
  end.

(** [Node.eval].  The two loops over the children return at the first
    child that decides the result. *)
Fixpoint eval (n : Node) (variables : dict bool) {struct n} : result bool :=
  match n with
  | mkNode value children =>
      if String.eqb value "and" then
        if List.length children <? 2 then Raise MalformedNode
        else
          (fix all_children (cs : list Node) : result bool :=
             match cs with
             | [] => Ok true
             | child :: cs' =>
                 match eval child variables with
                 | Raise e => Raise e
                 | Ok b => if negb b then Ok false else all_children cs'
                 end
             end) children
      else if String.eqb value "or" then
        if List.length children <? 2 then Raise MalformedNode
        else
          (fix any_child (cs : list Node) : result bool :=
             match cs with
             | [] => Ok false
             | child :: cs' =>
                 match eval child variables with
                 | Raise e => Raise e
                 | Ok b => if b then Ok true else any_child cs'
                 end
             end) children
      else if String.eqb value "not" then
        match children with
        | [] => Raise MalformedNode
        | child :: _ =>
            match eval child variables with
            | Raise e => Raise e
            | Ok b => Ok (negb b)
            end
        end
      else if String.eqb value "True" then Ok true
      else if String.eqb value "False" then Ok false
      else
        match dict_get variables value with
        | Some b => Ok b
        | None => Raise (UnboundName value)
        end
  end.

(** [sorted(children, key=lambda x: x.depth())].  Python's sort is
    stable, so the result is the one of a stable insertion sort: a node
    goes before the first node that is not shallower than it. *)
Fixpoint insert_by_depth (x : Node) (l : list Node) : list Node :=
  match l with
  | [] => [x]
  | y :: l' =>
      if depth x <=? depth y then x :: y :: l'
      else y :: insert_by_depth x l'
  end.

Definition sorted_by_depth (l : list Node) : list Node :=
  fold_right insert_by_depth [] l.

(** The [while i < len(expr)] loop of the inner [build_tree], with its
    local variables [children] and [node_type]; [expr] is the part from
    position [i] on.  When the parenthesis at [i] has no closing one the
    [for] loop ends without effect and the token is passed over. *)
Equations? build_tree (expr : list string) (children : list Node)
                     (node_type : option string) : result Node
  by wf (List.length expr) lt :=
  build_tree [] children node_type :=
    let children := sorted_by_depth children in
    match node_type with
    | Some t => Ok (mkNode t children)
    | None =>
        match children with
        | node :: _ => Ok node
        | [] => Raise IndexError
        end
    end;
  build_tree (token :: rest) children node_type :=
    if String.eqb token "(" then
      match find_close rest 1 0 with
      | Some k =>
          match firstn k rest with
          | [] => Raise EmptyParentheses
          | _ :: _ =>
              match build_tree (firstn k rest) [] None with
              | Raise e => Raise e
              | Ok node =>
                  build_tree (skipn (S k) rest) (children ++ [node]) node_type
              end
          end
      | None => build_tree rest children node_type
      end
    else if String.eqb token ")" then Raise UnmatchedParenthesis
    else if mem token ["not"; "and"; "or"] then
      if conflicts node_type token then Raise OperatorConflict
      else
        build_tree rest children
          (match node_type with None => Some token | Some _ => node_type end)
    else build_tree rest (children ++ [mkNode token []]) node_type.
Proof.
  - rewrite length_firstn. lia.
  - destruct rest as [|t rest']; cbn [List.length]; [lia|].
    rewrite length_skipn. lia.
Qed.

Definition build_tree_recursively (expr : list string) : result Node :=
  build_tree expr [] None.

End Tree.

(** ** Grammar validator: [Compiler._check_instructions] *)

Section Checker.

(** The tuple of names a declaration refuses. *)
Definition reserved : list string :=
  ["("; ")"; "and"; "or"; "not"; "True"; "False"; "var"; "show";
   "show_ones"; "="].

(** The tuple of names a display refuses. *)
Definition not_shown : list string :=
  ["("; ")"; "and"; "or"; "not"; "True"; "False"].

(** [for t in instr[1:]] of the declaration branch; returns the list
    [declared_vars] as left by the loop. *)
Fixpoint check_declaration (names : list string)
                           (declared_vars declared_ids : list string)
  : result (list string) :=
  match names with
  | [] => Ok declared_vars
  | t :: names' =>
      if mem t declared_vars || mem t declared_ids then Raise DuplicateName
      else if mem t reserved then Raise ReservedName
      else
        let declared_vars := declared_vars ++ [t] in
        if 64 <? List.length declared_vars then Raise TooManyVariables
        else check_declaration names' declared_vars declared_ids
  end.

(** [for t in instr[1:]] of the display branch. *)
Fixpoint check_display (names : list string)
                       (declared_vars declared_ids : list string)
  : result unit :=
  match names with
  | [] => Ok tt
  | t :: names' =>
      if (negb (mem t declared_ids) && negb (mem t declared_vars))
         || mem t not_shown
      then Raise UnknownIdentifier
      else check_display names' declared_vars declared_ids
  end.

(** [for instr in instructions]; returns the two lists of declared names
    as left by the loop.  An instruction of fewer than two tokens is
    refused first, so [instr[0]] and [instr[1]] are the two tokens
    matched here. *)
Fixpoint check_loop (instructions : list (list string))
                    (declared_vars declared_ids : list string)
  : result (list string * list string) :=
  match instructions with
  | [] => Ok (declared_vars, declared_ids)
  | instr :: instructions' =>
      match instr with
      | [] | [_] => Raise InvalidInstruction
      | i0 :: i1 :: args =>
          if String.eqb i0 "var" then
            declared_vars <-
              check_declaration (i1 :: args) declared_vars declared_ids ;;
            check_loop instructions' declared_vars declared_ids
          else if (3 <=? List.length instr) && String.eqb i1 "=" then
            if mem i0 declared_vars || mem i0 declared_ids
            then Raise DuplicateName
            else
              _ <- check_valid_recursively declared_vars declared_ids args ;;
              check_loop instructions' declared_vars (declared_ids ++ [i0])
          else if String.eqb i0 "show" || String.eqb i0 "show_ones" then
            _ <- check_display (i1 :: args) declared_vars declared_ids ;;
            check_loop instructions' declared_vars declared_ids
          else Raise InvalidInstruction
      end
  end.

Definition _check_instructions (instructions : list (list string))
  : result (list (list string)) :=
  _ <- check_loop instructions [] [] ;; Ok instructions.

End Checker.

(** ** Truth-table driver: [Compiler._show] *)

(** A computation that prints: the lines printed, in order, and the value
    returned or the exception raised after them. *)
Definition io (A : Type) : Type := (list string * result A)%type.

Definition io_bind {A B : Type} (m : io A) (k : A -> io B) : io B :=
  match m with
  | (out, Ok a) => let (out', r) := k a in (out ++ out', r)
  | (out, Raise e) => (out, Raise e)
  end.

Definition print (line : string) : io unit := ([line], Ok tt).

(** The attributes [self.vars] and [self.ids] of a [Compiler]. *)
Record Compiler : Type := mkCompiler {
  vars : list string;
  ids : dict Node
}.

Section Show.

(** [sep.join(l)] *)
Fixpoint join (sep : string) (l : list string) : string :=
  match l with
  | [] => ""
  | [x] => x
  | x :: l' => (x ++ sep ++ join sep l')%string
  end.

(** [itertools.product(pool, repeat=repeat)], as its documentation
    defines it: starting from [[[]]], once per position
    [result = [x + [y] for x in result for y in pool]]. *)
Fixpoint product {A : Type} (pool : list A) (repeat : nat) : list (list A) :=
  match repeat with
  | 0 => [[]]
  | S r => flat_map (fun x => map (fun y => x ++ [y]) pool) (product pool r)
  end.

(** [' 1' if b == True else ' 0'] *)
Definition digit (b : bool) : string := if b then " 1" else " 0".

Variable self : Compiler.
Variable ids_to_show : list string.
Variable show_ones : bool.

Definition header : string :=
  ("#" ++ " " ++ join " " (vars self) ++ "   " ++ join " " ids_to_show)%string.

(** [for id in self.ids.keys(): vars[id] = self.ids[id].eval(vars)] *)
Fixpoint eval_ids (l : dict Node) (vars : dict bool) : result (dict bool) :=
  match l with
  | [] => Ok vars
  | (id, tree) :: l' =>
      b <- eval tree vars ;; eval_ids l' (dict_set vars id b)
  end.

(** [for id in ids_to_show], with the locals [row] and [valid_row]. *)
Fixpoint requested (l : list string) (vars : dict bool)
                   (row : string) (valid_row : bool)
  : result (string * bool) :=
  match l with
  | [] => Ok (row, valid_row)
  | id :: l' =>
      match dict_get vars id with
      | None => Raise (UnboundName id)
      | Some b =>
          let row := (row ++ digit b)%string in
          let valid_row := if b && negb valid_row then true else valid_row in
          requested l' vars row valid_row
      end
  end.

(** The body of the [while] loop for the tuple [vars_value[i]]: the row
    if it is printed, [None] if it is not.  The loop [for v in vars] runs
    over the entries of the mapping just built, in order, and reads the
    value of each. *)
Definition show_row (tuple : list bool) : result (option string) :=
  let vars := dict_of (combine (vars self) tuple) in
  let row := " " in
  let valid_row := negb show_ones in
  let row := fold_left (fun row v => (row ++ digit (snd v))%string) vars row in
  let row := (row ++ "  ")%string in
  vars <- eval_ids (ids self) vars ;;
  rv <- requested ids_to_show vars row valid_row ;;
  Ok (if snd rv then Some (fst rv) else None).

(** The loop [while i < 2**n] over [i = 0, 1, ...]. *)
Fixpoint show_loop (vars_value : list (list bool)) (indices : list nat)
  : io unit :=
  match indices with
  | [] => ([], Ok tt)
  | i :: indices' =>
      match nth_error vars_value i with
      | None => ([], Raise IndexError)
      | Some tuple =>
          match show_row tuple with
          | Raise e => ([], Raise e)
          | Ok None => show_loop vars_value indices'
          | Ok (Some row) =>
              io_bind (print row) (fun _ => show_loop vars_value indices')
          end
      end
  end.

Definition _show : io unit :=
  io_bind (print header) (fun _ =>
    let vars_value := product [false; true] (List.length (vars self)) in
    let n := List.length (vars self) in
    show_loop vars_value (seq 0 (2 ^ n))).

End Show.

(** ** Executor: [Compiler._execute_instructions] and [Compiler.compile] *)

Section Execute.

(** [for t in i[1:]: if t == ';': break; self.vars.append(t)] *)
Fixpoint declare (names : list string) (vars : list string) : list string :=
  match names with
  | [] => vars
  | t :: names' =>
      if String.eqb t ";" then vars else declare names' (vars ++ [t])
  end.

(** The body of [for i in instructions]. *)
Definition execute_instruction (self : Compiler) (i : list string)
  : io Compiler :=
  match i with
  | [] => ([], Raise IndexError)
  | i0 :: tail =>
      if String.eqb i0 "var" then
        ([], Ok (mkCompiler (declare tail (vars self)) (ids self)))
      else
        match tail with
        | [] => ([], Raise IndexError)
        | i1 :: args =>
            if String.eqb i1 "=" then
              if negb (mem i0 (vars self)) && negb (mem i0 (keys (ids self)))
              then
                match build_tree_recursively args with
                | Raise e => ([], Raise e)
                | Ok tree =>
                    ([], Ok (mkCompiler (vars self) (dict_set (ids self) i0 tree)))
                end
              else ([], Raise AlreadyExists)
            else if String.eqb i0 "show" || String.eqb i0 "show_ones" then
              io_bind (_show self tail (String.eqb i0 "show_ones"))
                      (fun _ => ([], Ok self))
            else ([], Raise InvalidInstruction)
        end
  end.

Fixpoint _execute_instructions (instructions : list (list string))
                               (self : Compiler) : io Compiler :=
  match instructions with
  | [] => ([], Ok self)
  | i :: instructions' =>
      io_bind (execute_instruction self i)
              (_execute_instructions instructions')
  end.

(** [Compiler().compile(f)], without the verbose printing: the lines
    printed and the exception that ends the run, if any. *)
Definition compile (f : string) : io unit :=
  match _tokenize f with
  | Raise e => ([], Raise e)
  | Ok tokens =>
      let instructions := _split_instructions tokens in
      match _check_instructions instructions with
      | Raise e => ([], Raise e)
      | Ok instructions =>
          io_bind (_execute_instructions instructions (mkCompiler [] []))
                  (fun _ => ([], Ok tt))
      end
  end.

End Execute.

(** * Vocabulary of the properties *)

(** The character [c] occurs in the text. *)
Fixpoint occurs (c : ascii) (s : string) : bool :=
  match s with
  | EmptyString => false
  | String x s' => Ascii.eqb x c || occurs c s'
  end.

(** The text [ab#c], a newline, [cd]. *)
Definition comment_between_words : string :=
  ("ab#c" ++ String newline "cd")%string.

Definition example_source : string := "var x y; z = x and y; show x y z;".

(** Names that a declaration can add: pairwise distinct, not declared
    before, not reserved. *)
Definition fresh_names (dv di names : list string) : Prop :=
  NoDup names /\
  forall t, In t names -> ~ In t dv /\ ~ In t di /\ ~ In t reserved.

(** The expressions the validator accepts, as token lists.  A flat level
    is one operand, or [not] followed by one operand, or operands
    separated by one and the same binary connective; an operand is a
    declared name, a literal or a parenthesised level. *)
Inductive shape : Type :=
| Operand
| Chain (op : string)
| Expr.

Section LevelShapes.

Variables dv di : list string.

Inductive derives : shape -> list string -> Prop :=
| d_name t :
    is_operand dv di t = true -> t <> "(" -> t <> ")" ->
    derives Operand [t]
| d_paren e :
    derives Expr e -> derives Operand ("(" :: e ++ [")"])
| d_two op o1 o2 :
    op = "and" \/ op = "or" ->
    derives Operand o1 -> derives Operand o2 ->
    derives (Chain op) (o1 ++ op :: o2)
| d_more op o e :
    derives Operand o -> derives (Chain op) e ->
    derives (Chain op) (o ++ op :: e)
| d_single o : derives Operand o -> derives Expr o
| d_not o : derives Operand o -> derives Expr ("not" :: o)
| d_and e : derives (Chain "and") e -> derives Expr e
| d_or e : derives (Chain "or") e -> derives Expr e.

(** The search for a closing parenthesis runs over [e] without
    stopping and without changing its counter. *)
Definition passes (e : list string) : Prop :=
  forall rest n k, n <> 0 ->
    find_close (e ++ rest) n k = find_close rest n (k + List.length e).

(** What the validator does on the tokens of each shape. *)
Definition accepts (s : shape) (e : list string) : Prop :=
  match s with
  | Operand =>
      forall rest running clause, running <> 0%Z ->
        check_valid dv di (e ++ rest) running clause
        = check_valid dv di rest 0%Z clause
  | Chain op =>
      (op = "and" \/ op = "or") /\
      forall rest running clause,
        running <> 0%Z -> conflicts clause op = false ->
        check_valid dv di (e ++ rest) running clause
        = check_valid dv di rest 0%Z (Some op)
  | Expr => check_valid dv di e (-1)%Z None = Ok tt
  end.

(** Operands separated by the connective [op]: one operand or more. *)
Inductive operands (op : string) : list string -> Prop :=
| operands_one o : derives Operand o -> operands op o
| operands_more o r :
    derives Operand o -> operands op r -> operands op (o ++ op :: r).

(** The tokens that can follow on a level from a state of the
    validator's scan for the scan to succeed. *)
Inductive follows : Z -> option string -> list string -> Prop :=
| follows_nothing : follows (-1) None []
| follows_level e : derives Expr e -> follows (-1) None e
| follows_end clause : follows 0 clause []
| follows_connective clause op r :
    op = "and" \/ op = "or" -> conflicts clause op = false ->
    operands op r -> follows 0 clause (op :: r)
| follows_operands op r :
    op = "and" \/ op = "or" -> operands op r -> follows 1 (Some op) r
| follows_operand o : derives Operand o -> follows 2 (Some "not") o.

(** The states that the scan of a level goes through. *)
Inductive scanning : Z -> option string -> Prop :=
| scanning_begin : scanning (-1) None
| scanning_operand clause : scanning 0 clause
| scanning_binary op : op = "and" \/ op = "or" -> scanning 1 (Some op)
| scanning_unary : scanning 2 (Some "not").

End LevelShapes.

(** The 64 names [v0], [v1], ... as two-character strings. *)
Definition sixty_four_names : list string :=
  map (fun n => String "v" (String (Ascii.ascii_of_nat (48 + n)) EmptyString))
      (seq 0 64).

Fixpoint distinct (l : list string) : bool :=
  match l with
  | [] => true
  | t :: l' => negb (mem t l') && distinct l'
  end.

(** The binary digits of [i] on [n] positions, most significant first:
    the last position changes at every step of [i]. *)
Fixpoint bits (n i : nat) : list bool :=
  match n with
  | 0 => []
  | S n' => bits n' (Nat.div2 i) ++ [Nat.odd i]
  end.

(** Lexicographic order on tuples, with [false] before [true]. *)
Inductive lex_lt : list bool -> list bool -> Prop :=
| lex_here t u : lex_lt (false :: t) (true :: u)
| lex_next b t u : lex_lt t u -> lex_lt (b :: t) (b :: u).

(** The digits [' 1'] and [' 0'] of a list of values. *)
Fixpoint digits (bs : list bool) : string :=
  match bs with
  | [] => ""
  | b :: bs' => (digit b ++ digits bs')%string
  end.

(** [vars[id]] for each name of a list, in order. *)
Fixpoint lookup_all (l : list string) (vars : dict bool) : result (list bool) :=
  match l with
  | [] => Ok []
  | id :: l' =>
      match dict_get vars id with
      | None => Raise (UnboundName id)
      | Some b => bs <- lookup_all l' vars ;; Ok (b :: bs)
      end
  end.

Section Rows.

Variable self : Compiler.
Variable ids_to_show : list string.

(** The mapping of a row once its identifiers are resolved. *)
Definition row_env (tuple : list bool) : result (dict bool) :=
  eval_ids (ids self) (dict_of (combine (vars self) tuple)).

(** The row up to the columns of the requested names. *)
Definition row_head (tuple : list bool) : string :=
  (fold_left (fun row v => (row ++ digit (snd v))%string)
             (dict_of (combine (vars self) tuple)) " " ++ "  ")%string.

(** At least one requested name is true in the mapping of the row. *)
Definition requested_true (tuple : list bool) : bool :=
  match row_env tuple with
  | Ok env =>
      existsb (fun id => match dict_get env id with
                         | Some b => b
                         | None => false
                         end) ids_to_show
  | Raise _ => false
  end.

(** The rows of a list of tuples, up to the first exception. *)
Fixpoint show_rows (show_ones : bool) (tuples : list (list bool)) : io unit :=
  match tuples with
  | [] => ([], Ok tt)
  | tuple :: tuples' =>
      match show_row self ids_to_show show_ones tuple with
      | Raise e => ([], Raise e)
      | Ok None => show_rows show_ones tuples'
      | Ok (Some row) =>
          io_bind (print row) (fun _ => show_rows show_ones tuples')
      end
  end.

End Rows.

Definition example_compiler : Compiler :=
  mkCompiler ["x"; "y"]
             [("z", mkNode "and" [mkNode "x" []; mkNode "y" []])].

(** Induction on trees, with the property available for every child. *)
Fixpoint Node_children_ind (P : Node -> Prop)
    (step : forall v cs, Forall P cs -> P (mkNode v cs)) (n : Node) : P n :=
  match n with
  | mkNode v cs =>
      step v cs
        ((fix all (l : list Node) : Forall P l :=
            match l with
            | [] => Forall_nil P
            | c :: l' => Forall_cons c (Node_children_ind P step c) (all l')
            end) cs)
  end.

(** The trees on which [eval] raises nothing once [names] are bound: an
    [and] or [or] node has at least two well-formed children, a [not] node
    a well-formed first child, and any other node is a literal or one of
    [names]. *)
Fixpoint well_formed (names : list string) (n : Node) : bool :=
  match n with
  | mkNode value children =>
      if String.eqb value "and" || String.eqb value "or" then
        (2 <=? List.length children) && forallb (well_formed names) children
      else if String.eqb value "not" then
        match children with
        | [] => false
        | child :: _ => well_formed names child
        end
      else mem value ["True"; "False"] || mem value names
  end.

(** Every name of [names] has a value in the mapping. *)
Definition bound (variables : dict bool) (names : list string) : Prop :=
  forall k, In k names -> dict_get variables k <> None.

(** The loop of an [and] node over the results of its children. *)
Fixpoint all_children (rs : list (result bool)) : result bool :=
  match rs with
  | [] => Ok true
  | Raise e :: _ => Raise e
  | Ok b :: rs' => if negb b then Ok false else all_children rs'
  end.

(** The loop of an [or] node over the results of its children. *)
Fixpoint any_child (rs : list (result bool)) : result bool :=
  match rs with
  | [] => Ok false
  | Raise e :: _ => Raise e
  | Ok b :: rs' => if b then Ok true else any_child rs'
  end.

(** The states of the validator's scan of one flat level, with the number
    of operands collected so far by the builder on the same tokens:
    [running], [clause], [len(children)]. *)
Inductive level_ok : Z -> option string -> nat -> Prop :=
| level_begin : level_ok (-1) None 0
| level_unary : level_ok 2 (Some "not") 0
| level_binary op c :
    op = "and" \/ op = "or" -> 1 <= c -> level_ok 1 (Some op) c
| level_single : level_ok 0 None 1
| level_negated : level_ok 0 (Some "not") 1
| level_chain op c :
    op = "and" \/ op = "or" -> 2 <= c -> level_ok 0 (Some op) c.

(** The trees of the identifiers, in order, each over the names that come
    before it: [names], then the identifiers before it. *)
Fixpoint scoped (names : list string) (l : dict Node) : bool :=
  match l with
  | [] => true
  | (id, tree) :: l' => well_formed names tree && scoped (names ++ [id]) l'
  end.

(** The names that the validator does not refuse on the left of an
    assignment and that the executor or the evaluator reads as something
    else than a name. *)
Definition misread : list string := ["and"; "or"; "not"; "="].

(** The instruction does not assign one of the [misread] names. *)
Definition plain_target (instr : list string) : bool :=
  match instr with
  | i0 :: i1 :: _ => negb (String.eqb i1 "=") || negb (mem i0 misread)
  | _ => true
  end.

(** The executor's state matches the validator's lists of declared names. *)
Record agrees (dv di : list string) (self : Compiler) : Prop := {
  agrees_vars : vars self = dv;
  agrees_ids : keys (ids self) = di;
  agrees_scoped : scoped (vars self) (ids self) = true;
  agrees_plain : forall t, In t (dv ++ di) -> ~ In t misread;
  agrees_distinct : NoDup dv
}.

(** ** Words, balanced expressions, canonical trees *)

(** Every character of the text satisfies [p]. *)
Fixpoint all_chars (p : ascii -> bool) (s : string) : bool :=
  match s with
  | EmptyString => true
  | String c s' => p c && all_chars p s'
  end.

(** A word: a letter or an underscore, then letters, digits and
    underscores. *)
Definition is_word (t : string) : bool :=
  match t with
  | EmptyString => false
  | String c t' => is_word_start c && all_chars is_word_char t'
  end.

(** What the lexer emits: a word or one of the four special characters. *)
Definition lexeme (t : string) : bool :=
  mem t ["("; ")"; "="; ";"] || is_word t.

(** A character that the lexer reads outside a comment without raising
    whatever its state: a letter, an underscore, a blank or a special
    character. *)
Definition plain_char (c : ascii) : bool :=
  is_word_start c || is_blank c || is_special c.

(** A character that the lexer refuses in every state. *)
Definition foreign_char (c : ascii) : bool :=
  negb (is_word_char c || is_blank c || is_special c).

(** Some character of the text satisfies [p]. *)
Fixpoint some_char (p : ascii -> bool) (s : string) : bool :=
  match s with
  | EmptyString => false
  | String c s' => p c || some_char p s'
  end.

(** The parentheses of the tokens are balanced, [d] of them being open
    before the first token. *)
Fixpoint balanced_from (d : nat) (e : list string) : bool :=
  match e with
  | [] => d =? 0
  | t :: e' =>
      if String.eqb t "(" then balanced_from (S d) e'
      else if String.eqb t ")" then
        match d with
        | 0 => false
        | S d' => balanced_from d' e'
        end
      else balanced_from d e'
  end.

(** A token that an accepted expression can hold. *)
Definition known_token (dv di : list string) (t : string) : bool :=
  mem t ["("; ")"; "not"; "and"; "or"] || is_operand dv di t.

(** The list is in ascending order. *)
Fixpoint ascending (l : list nat) : bool :=
  match l with
  | [] => true
  | x :: l' =>
      match l' with
      | [] => true
      | y :: _ => (x <=? y) && ascending l'
      end
  end.

(** Every node of the tree has its children in ascending order of
    depth. *)
Fixpoint canonical (n : Node) : bool :=
  match n with
  | mkNode _ cs => ascending (map depth cs) && forallb canonical cs
  end.

(** The value of a tree in a mapping, [false] when [eval] raises. *)
Definition value_of (variables : dict bool) (n : Node) : bool :=
  match eval n variables with
  | Ok b => b
  | Raise _ => false
  end.

(** The tree evaluates without exception in the mapping. *)
Definition evaluates (variables : dict bool) (n : Node) : Prop :=
  exists b, eval n variables = Ok b.

(** The instructions, each followed by its [;]. *)
Definition terminated (instructions : list (list string)) : list string :=
  flat_map (fun instr => instr ++ [";"]) instructions.

(** A name that a display can show. *)
Definition shown (dv di : list string) (t : string) : bool :=
  (mem t di || mem t dv) && negb (mem t not_shown).

(** What validation keeps true of its two lists: no name twice, in one
    list or across them, at most 64 variables, no reserved variable. *)
Definition declared_ok (dv di : list string) : Prop :=
  NoDup (dv ++ di) /\ List.length dv <= 64 /\
  forall t, In t dv -> ~ In t reserved.

(** The instruction is not a display: its first token is neither [show]
    nor [show_ones]. *)
Definition silent (instr : list string) : bool :=
  match instr with
  | [] => true
  | i0 :: _ => negb (String.eqb i0 "show" || String.eqb i0 "show_ones")
  end.

(** The tokens of operands separated by one connective:
    [x1 op x2 op ... xn]. *)
Fixpoint chain_tokens (op : string) (names : list string) : list string :=
  match names with
  | [] => []
  | [x] => [x]
  | x :: names' => x :: op :: chain_tokens op names'
  end.

(** A token that the builder turns into a leaf. *)
Definition leaf_token (t : string) : bool :=
  negb (mem t ["("; ")"; "not"; "and"; "or"]).

(** The value of a name in a mapping: its literal value for [True] and
    [False], else the value bound to it, [false] when there is none. *)
Definition value_in (variables : dict bool) (x : string) : bool :=
  value_of variables (mkNode x []).

(** The text in which each token is followed by one space. *)
Fixpoint spaced (tokens : list string) : string :=
  match tokens with
  | [] => ""
  | t :: tokens' => (t ++ " " ++ spaced tokens')%string
  end.

(** * Properties *)

(** ** Membership and basic facts *)

Lemma mem_In (t : string) (l : list string) : mem t l = true <-> In t l.
Proof.
  unfold mem. rewrite existsb_exists. split.
  - intros [x [Hx Heq]]. apply String.eqb_eq in Heq. now subst.
  - intros H. exists t. split; [assumption | apply String.eqb_refl].
Qed.

Lemma mem_not_In (t : string) (l : list string) : mem t l = false <-> ~ In t l.
Proof.
  rewrite <- mem_In. destruct (mem t l); split; congruence.
Qed.

Lemma mem_app (t : string) (l1 l2 : list string) :
  mem t (l1 ++ l2) = mem t l1 || mem t l2.
Proof. unfold mem. apply existsb_app. Qed.

(** ** The removal of comments *)

Section CommentFacts.

Lemma comment_tail_open (c : string) :
  occurs newline c = false -> comment_tail c = None.
Proof.
  induction c as [|x c IH]; cbn [occurs comment_tail]; [reflexivity|].
  intros H. apply orb_false_elim in H. destruct H as [Hx Hc].
  rewrite Hx. now apply IH.
Qed.

Lemma comment_tail_closed (c b : string) :
  occurs newline c = false ->
  comment_tail (c ++ String newline b) = Some (sub_comments b).
Proof.
  induction c as [|x c IH]; intros H.
  - cbn [append comment_tail]. now rewrite Ascii.eqb_refl.
  - cbn [occurs] in H. apply orb_false_elim in H. destruct H as [Hx Hc].
    cbn [append comment_tail]. rewrite Hx. now apply IH.
Qed.

(** A comment closed by a newline is removed with its newline: what
    stands before the [#] is joined to what follows the newline. *)
Lemma sub_comments_joins (a c b : string) :
  occurs "#" a = false -> occurs newline c = false ->
  sub_comments (a ++ String "#" (c ++ String newline b))
  = (a ++ sub_comments b)%string.
Proof.
  intros Ha Hc. induction a as [|x a IH].
  - cbn [append sub_comments]. rewrite Ascii.eqb_refl.
    now rewrite comment_tail_closed.
  - cbn [occurs] in Ha. apply orb_false_elim in Ha. destruct Ha as [Hx Ha].
    cbn [append sub_comments]. rewrite Hx. now rewrite IH.
Qed.

(** A comment that no newline closes stays in the text, with its [#]. *)
Lemma sub_comments_keeps (pre c : string) :
  occurs newline c = false ->
  occurs "#" (sub_comments (pre ++ String "#" c)) = true /\
  (forall out, comment_tail (pre ++ String "#" c) = Some out ->
               occurs "#" out = true).
Proof.
  intros Hc. induction pre as [|x pre [IHs IHt]].
  - cbn [append sub_comments comment_tail]. rewrite Ascii.eqb_refl.
    rewrite (comment_tail_open c Hc). split.
    + cbn [occurs]. now rewrite Ascii.eqb_refl.
    + replace (Ascii.eqb "#" newline) with false by reflexivity.
      intros out H. discriminate H.
  - cbn [append sub_comments comment_tail]. split.
    + destruct (Ascii.eqb x "#") eqn:Hx.
      * destruct (comment_tail (pre ++ String "#" c)) as [out|] eqn:Ht.
        -- now apply IHt.
        -- cbn [occurs]. now rewrite Hx.
      * cbn [occurs]. now rewrite Hx, IHs.
    + intros out. destruct (Ascii.eqb x newline).
      * intros [= <-]. exact IHs.
      * apply IHt.
Qed.

Lemma tokenize_loop_hash (s : string) (tokens : list string) (word : string) :
  occurs "#" s = true -> exists e, tokenize_loop s tokens word = Raise e.
Proof.
  revert tokens word. induction s as [|x s IH]; intros tokens word;
    [discriminate|].
  cbn [occurs tokenize_loop]. destruct (Ascii.eqb_spec x "#") as [->|Hx].
  - intros _. destruct (truthy word); cbn; eexists; reflexivity.
  - cbn [orb]. intros Hs.
    destruct (is_word_start x && negb (truthy word)); [now apply IH|].
    destruct (is_digit x && negb (truthy word)); [eexists; reflexivity|].
    destruct (is_word_char x && truthy word); [now apply IH|].
    destruct (is_blank x); [destruct (truthy word); now apply IH|].
    destruct (is_special x); [now apply IH|].
    eexists; reflexivity.
Qed.

(** A text whose last comment is not closed by a newline is refused by
    the lexer. *)
Lemma tokenize_open_comment (pre c : string) :
  occurs newline c = false ->
  exists e, _tokenize (pre ++ String "#" c) = Raise e.
Proof.
  intros Hc. apply tokenize_loop_hash. now apply sub_comments_keeps.
Qed.

End CommentFacts.

(** ** The splitter *)

Section SplitterFacts.

Lemma split_loop_instruction (instr rest : list string)
      (instructions : list (list string)) (buffer : list string) :
  ~ In ";" instr ->
  split_loop (instr ++ ";" :: rest) instructions buffer
  = split_loop rest (instructions ++ [buffer ++ instr]) [].
Proof.
  revert buffer. induction instr as [|t instr IH]; intros buffer Hno.
  - cbn. now rewrite app_nil_r.
  - cbn [app split_loop].
    destruct (String.eqb_spec t ";") as [->|_].
    + exfalso. apply Hno. now left.
    + rewrite IH by (intros H; apply Hno; now right).
      now rewrite <- app_assoc.
Qed.

Lemma split_loop_acc (tokens : list string)
      (instructions : list (list string)) (buffer : list string) :
  split_loop tokens instructions buffer
  = instructions ++ split_loop tokens [] buffer.
Proof.
  revert instructions buffer.
  induction tokens as [|t tokens IH]; intros instructions buffer; cbn.
  - now rewrite app_nil_r.
  - destruct (String.eqb t ";").
    + rewrite IH, (IH [buffer]). now rewrite app_assoc.
    + apply IH.
Qed.

Lemma split_loop_tail (tokens tail : list string)
      (instructions : list (list string)) (buffer : list string) :
  ~ In ";" tail ->
  split_loop (tokens ++ tail) instructions buffer
  = split_loop tokens instructions buffer.
Proof.
  intros Hno. revert instructions buffer.
  induction tokens as [|t tokens IH]; intros instructions buffer.
  - cbn [app]. revert buffer.
    induction tail as [|t tail IHt]; intros buffer; [reflexivity|].
    cbn. destruct (String.eqb_spec t ";") as [->|_].
    + exfalso. apply Hno. now left.
    + apply IHt. intros H. apply Hno. now right.
  - cbn. destruct (String.eqb t ";"); apply IH.
Qed.

End SplitterFacts.

(** ** Declarations *)

Section Declarations.

Lemma fresh_names_tail (dv di : list string) (t : string) (names : list string) :
  fresh_names dv di (t :: names) -> fresh_names (dv ++ [t]) di names.
Proof.
  intros [Hnd Hf]. inversion Hnd as [|? ? Hnotin Hnd']; subst. split.
  - assumption.
  - intros t' Hin. destruct (Hf t' (or_intror Hin)) as [Hv [Hi Hr]].
    repeat split; try assumption.
    rewrite in_app_iff. cbn. intros [H|[H|[]]]; [tauto|].
    subst. tauto.
Qed.

Lemma check_declaration_app (pre rest dv di : list string) :
  fresh_names dv di pre -> List.length dv + List.length pre <= 64 ->
  check_declaration (pre ++ rest) dv di
  = check_declaration rest (dv ++ pre) di.
Proof.
  revert dv. induction pre as [|t pre IH]; intros dv Hf Hlen.
  - cbn. now rewrite app_nil_r.
  - cbn [app check_declaration].
    destruct (proj2 Hf t (or_introl eq_refl)) as [Hv [Hi Hr]].
    apply mem_not_In in Hv, Hi, Hr. rewrite Hv, Hi, Hr. cbn [orb].
    cbn [List.length] in Hlen.
    replace (64 <? List.length (dv ++ [t])) with false.
    2:{ symmetry. apply Nat.ltb_ge. rewrite length_app. cbn. lia. }
    rewrite IH.
    + now rewrite <- app_assoc.
    + now apply fresh_names_tail.
    + rewrite length_app. cbn. lia.
Qed.

Lemma check_loop_var (names : list string) (rest : list (list string))
      (dv di : list string) :
  names <> [] ->
  check_loop (("var" :: names) :: rest) dv di
  = (dv' <- check_declaration names dv di ;; check_loop rest dv' di).
Proof. destruct names; [congruence | reflexivity]. Qed.

End Declarations.

(** ** The expression validator *)

Section ValidatorFacts.

Variables dv di : list string.

(** The three connectives are not declared names. *)
Hypothesis and_free : is_operand dv di "and" = false.
Hypothesis or_free : is_operand dv di "or" = false.
Hypothesis not_free : is_operand dv di "not" = false.

Lemma passes_token (t : string) : t <> "(" -> t <> ")" -> passes [t].
Proof.
  intros Ho Hc rest n k Hn. cbn.
  apply String.eqb_neq in Ho, Hc. rewrite Ho, Hc.
  apply Nat.eqb_neq in Hn. rewrite Hn. f_equal. lia.
Qed.

Lemma passes_app (a b : list string) : passes a -> passes b -> passes (a ++ b).
Proof.
  intros Ha Hb rest n k Hn.
  rewrite <- app_assoc, Ha, Hb by assumption.
  rewrite length_app. f_equal. lia.
Qed.

Lemma passes_paren (e : list string) : passes e -> passes ("(" :: e ++ [")"]).
Proof.
  intros He rest n k Hn. cbn [app find_close String.eqb Ascii.eqb Bool.eqb].
  cbn [Nat.eqb]. rewrite <- app_assoc, He by discriminate.
  cbn. destruct n as [|n]; [congruence|]. cbn.
  rewrite length_app. cbn. f_equal. lia.
Qed.

Lemma find_close_group (e rest : list string) :
  passes e -> find_close (e ++ ")" :: rest) 1 0 = Some (List.length e).
Proof. intros He. rewrite He by discriminate. reflexivity. Qed.

Lemma skipn_group (e : list string) (x : string) (rest : list string) :
  skipn (S (List.length e)) (e ++ x :: rest) = rest.
Proof. induction e as [|a e IH]; [reflexivity | exact IH]. Qed.

Lemma firstn_group (e rest : list string) :
  firstn (List.length e) (e ++ rest) = e.
Proof. induction e as [|a e IH]; cbn; [reflexivity | now rewrite IH]. Qed.

Lemma check_valid_connective (op : string) (rest : list string)
      (clause : option string) :
  op = "and" \/ op = "or" ->
  check_valid dv di (op :: rest) 0%Z clause
  = if conflicts clause op then Raise OperatorConflict
    else check_valid dv di rest 1%Z (Some op).
Proof.
  intros [-> | ->]; rewrite check_valid_equation_2; cbn.
  - now rewrite and_free.
  - now rewrite or_free.
Qed.

Lemma conflicts_same (op : string) : conflicts (Some op) op = false.
Proof. cbn. now rewrite String.eqb_refl. Qed.

Lemma passes_connective (op : string) : op = "and" \/ op = "or" -> passes [op].
Proof. intros [-> | ->]; apply passes_token; discriminate. Qed.

Lemma derives_shape (s : shape) (e : list string) :
  derives dv di s e -> passes e /\ e <> [] /\ accepts dv di s e.
Proof.
  induction 1 as
    [ t Ht Ho Hc
    | e He [IHp [IHne IH]]
    | op o1 o2 Hop H1 [IHp1 [IHne1 IH1]] H2 [IHp2 [IHne2 IH2]]
    | op o e H1 [IHp1 [IHne1 IH1]] H2 [IHp2 [IHne2 [Hop IH2]]]
    | o Ho [IHp [IHne IH]]
    | o Ho [IHp [IHne IH]]
    | e He [IHp [IHne [Hop IH]]]
    | e He [IHp [IHne [Hop IH]]] ].
  - (* a name or a literal *)
    split; [now apply passes_token|]. split; [discriminate|].
    intros rest running clause Hr. cbn [app].
    rewrite check_valid_equation_2.
    apply String.eqb_neq in Ho, Hc. rewrite Ho, Hc, Ht.
    apply Z.eqb_neq in Hr. now rewrite Hr.
  - (* a parenthesised group *)
    split; [now apply passes_paren|]. split; [discriminate|].
    intros rest running clause Hr. cbn [app].
    rewrite check_valid_equation_2. cbn [String.eqb Ascii.eqb Bool.eqb].
    apply Z.eqb_neq in Hr. rewrite Hr.
    rewrite <- app_assoc. cbn [app].
    rewrite find_close_group, firstn_group, skipn_group by assumption.
    cbn in IH. rewrite IH.
    destruct e; [congruence | reflexivity].
  - (* two operands around a connective *)
    split.
    { apply passes_app; [assumption|].
      change (op :: o2) with ([op] ++ o2).
      apply passes_app; [now apply passes_connective | assumption]. }
    split; [destruct o1; discriminate|].
    split; [assumption|].
    intros rest running clause Hr Hcl. cbn in IH1, IH2.
    rewrite <- app_assoc. cbn [app].
    rewrite IH1, check_valid_connective, Hcl by assumption.
    now rewrite IH2.
  - (* one more operand in front of a chain *)
    split.
    { apply passes_app; [assumption|].
      change (op :: e) with ([op] ++ e).
      apply passes_app; [now apply passes_connective | assumption]. }
    split; [destruct o; discriminate|].
    split; [assumption|].
    intros rest running clause Hr Hcl. cbn in IH1.
    rewrite <- app_assoc. cbn [app].
    rewrite IH1, check_valid_connective, Hcl by assumption.
    apply IH2; [discriminate | apply conflicts_same].
  - (* a level of one operand *)
    split; [assumption|]. split; [assumption|].
    cbn in *. rewrite <- (app_nil_r o), IH by discriminate.
    now rewrite check_valid_equation_1.
  - (* a negated operand *)
    split.
    { change ("not" :: o) with (["not"] ++ o).
      apply passes_app; [apply passes_token; discriminate | assumption]. }
    split; [discriminate|].
    cbn in *. rewrite check_valid_equation_2. cbn. rewrite not_free.
    rewrite <- (app_nil_r o), IH by discriminate.
    now rewrite check_valid_equation_1.
  - (* a conjunction *)
    split; [assumption|]. split; [assumption|].
    cbn. rewrite <- (app_nil_r e), IH by (discriminate || reflexivity).
    now rewrite check_valid_equation_1.
  - (* a disjunction *)
    split; [assumption|]. split; [assumption|].
    cbn. rewrite <- (app_nil_r e), IH by (discriminate || reflexivity).
    now rewrite check_valid_equation_1.
Qed.

Lemma find_close_found (rest : list string) (n k j : nat) :
  n <> 0 -> find_close rest n k = Some j ->
  k <= j /\ nth_error rest (j - k) = Some ")".
Proof.
  revert n k. induction rest as [|t rest IH]; intros n k Hn;
    cbn [find_close]; [discriminate|].
  assert (Hnext : forall n', n' <> 0 ->
            find_close rest n' (S k) = Some j ->
            k <= j /\ nth_error (t :: rest) (j - k) = Some ")").
  { intros n' Hn' H. destruct (IH n' (S k) Hn' H) as [Hle Hnth].
    split; [lia|]. replace (j - k) with (S (j - S k)) by lia. exact Hnth. }
  destruct (String.eqb_spec t "(") as [->|Hopen].
  { cbn [Nat.eqb]. apply Hnext. discriminate. }
  destruct (String.eqb_spec t ")") as [->|Hclose].
  { destruct n as [|[|n]]; [congruence | |]; cbn [Nat.pred Nat.eqb].
    - intros [= <-]. rewrite Nat.sub_diag. split; [lia | reflexivity].
    - apply Hnext. discriminate. }
  destruct n as [|n]; [congruence|]. cbn [Nat.eqb].
  apply Hnext. discriminate.
Qed.

(** The group found by the search, its closing parenthesis and what
    comes after it. *)
Lemma find_close_parts (rest : list string) (j : nat) :
  find_close rest 1 0 = Some j ->
  rest = firstn j rest ++ ")" :: skipn (S j) rest.
Proof.
  intros H. destruct (find_close_found rest 1 0 j ltac:(discriminate) H)
    as [_ Hnth].
  rewrite Nat.sub_0_r in Hnth.
  destruct (nth_error_split rest j Hnth) as [l1 [l2 [Heq Hlen]]].
  subst j. rewrite Heq at 2 3. rewrite firstn_group, skipn_group.
  exact Heq.
Qed.

Lemma operands_chain (op : string) (o r : list string) :
  op = "and" \/ op = "or" ->
  derives dv di Operand o -> operands dv di op r ->
  derives dv di (Chain op) (o ++ op :: r).
Proof.
  intros Hop Ho Hr. revert o Ho.
  induction Hr as [o2 Ho2 | o2 r Ho2 Hr IH]; intros o Ho.
  - now apply d_two.
  - apply d_more; [assumption | now apply IH].
Qed.

(** An operand read in a state that expects one, followed by what can
    follow an operand. *)
Lemma follows_after_operand (o rest : list string) (running : Z)
      (clause : option string) :
  derives dv di Operand o -> scanning running clause -> running <> 0%Z ->
  follows dv di 0 clause rest -> follows dv di running clause (o ++ rest).
Proof.
  intros Ho Hscan Hrun Hrest.
  inversion Hscan as [ | | op Hop | ]; subst; try congruence.
  - (* at the beginning of the level *)
    inversion Hrest as [ | | | ? op r Hop Hconf Hr | | ]; subst.
    + rewrite app_nil_r. now apply follows_level, d_single.
    + apply follows_level.
      destruct Hop as [-> | ->]; [apply d_and | apply d_or];
        apply operands_chain; auto.
  - (* after a binary connective *)
    inversion Hrest as [ | | | ? op' r Hop' Hconf Hr | | ]; subst.
    + rewrite app_nil_r. now apply follows_operands, operands_one.
    + cbn in Hconf. apply negb_false_iff, String.eqb_eq in Hconf. subst op'.
      apply follows_operands; [assumption|]. now apply operands_more.
  - (* after [not] *)
    inversion Hrest as [ | | | ? op' r Hop' Hconf Hr | | ]; subst.
    + rewrite app_nil_r. now apply follows_operand.
    + destruct Hop' as [-> | ->]; discriminate Hconf.
Qed.

(** What the validator accepts from a state of its scan. *)
Lemma check_valid_follows (n : nat) :
  forall (e : list string) (running : Z) (clause : option string),
    List.length e <= n -> scanning running clause ->
    check_valid dv di e running clause = Ok tt ->
    follows dv di running clause e.
Proof.
  induction n as [|n IH]; intros e running clause Hlen Hscan.
  - destruct e; [|cbn in Hlen; lia]. rewrite check_valid_equation_1.
    inversion Hscan; subst; cbn; try discriminate; intros _; constructor.
  - destruct e as [|token rest].
    { rewrite check_valid_equation_1.
      inversion Hscan; subst; cbn; try discriminate; intros _; constructor. }
    cbn [List.length] in Hlen. rewrite check_valid_equation_2.
    destruct (String.eqb_spec token "(") as [->|Hopen].
    { (* a parenthesised group *)
      destruct (Z.eqb_spec running 0) as [->|Hrun]; [discriminate|].
      destruct (find_close rest 1 0) as [k|] eqn:Hfind; [|discriminate].
      destruct (firstn k rest) as [|a inner] eqn:Hinner; [discriminate|].
      destruct (check_valid dv di (a :: inner) (-1) None) as [[]|err] eqn:Hin;
        [|discriminate].
      intros Hrest.
      assert (Hgroup : derives dv di Expr (a :: inner)).
      { assert (Hf : follows dv di (-1) None (a :: inner)).
        { apply IH; [|constructor|assumption].
          rewrite <- Hinner, length_firstn. lia. }
        inversion Hf; subst. assumption. }
      apply IH in Hrest; [|rewrite length_skipn; lia|constructor].
      assert (Heq : "(" :: rest
                    = ("(" :: (a :: inner) ++ [")"]) ++ skipn (S k) rest).
      { rewrite (find_close_parts rest k Hfind) at 1. rewrite Hinner.
        cbn. now rewrite <- app_assoc. }
      rewrite Heq. apply follows_after_operand; try assumption.
      now apply d_paren. }
    destruct (String.eqb_spec token ")") as [->|Hclose]; [discriminate|].
    destruct (is_operand dv di token) eqn:Hop.
    { (* a declared name or a literal *)
      destruct (Z.eqb_spec running 0) as [->|Hrun]; [discriminate|].
      intros Hrest. apply IH in Hrest; [|lia|constructor].
      change (token :: rest) with ([token] ++ rest).
      apply follows_after_operand; try assumption.
      now apply d_name. }
    destruct (String.eqb_spec token "not") as [->|Hnot].
    { (* the unary connective *)
      destruct (Z.eqb_spec running (-1)) as [->|Hrun]; cbn [negb];
        [|discriminate].
      inversion Hscan; subst. cbn [conflicts].
      intros Hrest. apply IH in Hrest; [|lia|constructor].
      inversion Hrest; subst. now apply follows_level, d_not. }
    destruct (mem token ["and"; "or"]) eqn:Hbin; [|discriminate].
    (* a binary connective *)
    assert (Htok : token = "and" \/ token = "or").
    { apply mem_In in Hbin. cbn in Hbin. intuition congruence. }
    destruct (Z.eqb_spec running 0) as [->|Hrun]; cbn [negb]; [|discriminate].
    destruct (conflicts clause token) eqn:Hconf; [discriminate|].
    intros Hrest. apply IH in Hrest; [|lia|now constructor].
    inversion Hrest; subst. now apply follows_connective.
Qed.

(** The validator accepts nothing else than the levels of [derives]. *)
Lemma check_valid_derives (e : list string) :
  check_valid_recursively dv di e = Ok tt -> e = [] \/ derives dv di Expr e.
Proof.
  intros H. apply (check_valid_follows (List.length e)) in H;
    [|lia|constructor].
  inversion H; subst; [now left | now right].
Qed.

End ValidatorFacts.

(** ** Declarations, on concrete names *)

Lemma distinct_NoDup (l : list string) : distinct l = true -> NoDup l.
Proof.
  induction l as [|t l IH]; cbn; intros H; constructor.
  - apply andb_prop in H. destruct H as [H _].
    apply mem_not_In. now destruct (mem t l).
  - apply IH. apply andb_prop in H. tauto.
Qed.

Lemma fresh_names_check (dv di names : list string) :
  distinct names = true ->
  forallb (fun t => negb (mem t dv) && negb (mem t di) && negb (mem t reserved))
          names = true ->
  fresh_names dv di names.
Proof.
  intros Hd Hf. split; [now apply distinct_NoDup|].
  intros t Hin. rewrite forallb_forall in Hf. specialize (Hf t Hin).
  apply andb_prop in Hf. destruct Hf as [Hf Hr].
  apply andb_prop in Hf. destruct Hf as [Hv Hi].
  rewrite <- !mem_not_In.
  destruct (mem t dv), (mem t di), (mem t reserved); try discriminate; tauto.
Qed.

(** ** The enumeration of assignments *)

Section Product.

Lemma bits_length (n i : nat) : List.length (bits n i) = n.
Proof.
  revert i. induction n as [|n IH]; intros i; cbn; [reflexivity|].
  rewrite length_app, IH. cbn. lia.
Qed.

Lemma flat_map_pairs_length {A B : Type} (g : A -> bool -> B) (l : list A) :
  List.length (flat_map (fun x => map (fun y => g x y) [false; true]) l)
  = 2 * List.length l.
Proof. induction l as [|x l IH]; cbn in *; lia. Qed.

Lemma product_length (n : nat) :
  List.length (product [false; true] n) = 2 ^ n.
Proof.
  induction n as [|n IH]; [reflexivity|].
  cbn [product].
  rewrite (flat_map_pairs_length (fun x y => x ++ [y])), IH.
  now rewrite Nat.pow_succ_r'.
Qed.

Lemma product_tuple_length (n : nat) (t : list bool) :
  In t (product [false; true] n) -> List.length t = n.
Proof.
  revert t. induction n as [|n IH]; intros t; cbn [product].
  - intros [<-|[]]. reflexivity.
  - rewrite in_flat_map. intros [x [Hx Ht]]. cbn in Ht.
    destruct Ht as [<-|[<-|[]]]; rewrite length_app, (IH x Hx); cbn; lia.
Qed.

Lemma nth_error_pairs {A B : Type} (g : A -> bool -> B) (l : list A) (i : nat) :
  nth_error (flat_map (fun x => map (fun y => g x y) [false; true]) l) i
  = option_map (fun x => g x (Nat.odd i)) (nth_error l (Nat.div2 i)).
Proof.
  revert i. induction l as [|x l IH]; intros i.
  - cbn. now destruct i, (Nat.div2 _).
  - destruct i as [|[|i]]; [reflexivity | reflexivity |].
    cbn [flat_map map app nth_error Nat.div2]. rewrite IH.
    reflexivity.
Qed.

Lemma div2_lt_pow (n i : nat) : i < 2 ^ S n -> Nat.div2 i < 2 ^ n.
Proof.
  rewrite Nat.pow_succ_r'. intros H.
  pose proof (Nat.div2_odd i) as Hi. destruct (Nat.odd i); cbn in Hi; lia.
Qed.

(** The [i]-th tuple of the product is the binary writing of [i]. *)
Lemma product_nth (n i : nat) :
  i < 2 ^ n -> nth_error (product [false; true] n) i = Some (bits n i).
Proof.
  revert i. induction n as [|n IH]; intros i Hi.
  - cbn in Hi. assert (i = 0) as -> by lia. reflexivity.
  - cbn [product bits].
    rewrite (nth_error_pairs (fun x y => x ++ [y])).
    rewrite IH by now apply div2_lt_pow. reflexivity.
Qed.

Lemma lex_lt_app_l (p t u : list bool) : lex_lt t u -> lex_lt (p ++ t) (p ++ u).
Proof. induction p; cbn; [trivial | intros; now apply lex_next, IHp]. Qed.

Lemma lex_lt_app_r (t u t' u' : list bool) :
  lex_lt t u -> lex_lt (t ++ t') (u ++ u').
Proof. induction 1; cbn; now constructor. Qed.

Lemma bits_inj_lt (n i j : nat) :
  i < j -> j < 2 ^ n -> lex_lt (bits n i) (bits n j).
Proof.
  revert i j. induction n as [|n IH]; intros i j Hij Hj.
  - cbn in Hj. lia.
  - cbn [bits].
    pose proof (Nat.div2_odd i) as Hi. pose proof (Nat.div2_odd j) as Hj'.
    destruct (Nat.lt_ge_cases (Nat.div2 i) (Nat.div2 j)) as [Hlt|Hge].
    + apply lex_lt_app_r, IH; [assumption | now apply div2_lt_pow].
    + assert (Heq : Nat.div2 i = Nat.div2 j).
      { destruct (Nat.odd i), (Nat.odd j); cbn in Hi, Hj'; lia. }
      rewrite Heq. apply lex_lt_app_l.
      destruct (Nat.odd i), (Nat.odd j); cbn in Hi, Hj';
        try lia; constructor.
Qed.

(** Every tuple of [n] values is the writing of some [i] below [2 ^ n]. *)
Lemma bits_onto (n : nat) (t : list bool) :
  List.length t = n -> exists i, i < 2 ^ n /\ bits n i = t.
Proof.
  revert t. induction n as [|n IH]; intros t Hlen.
  - destruct t; [|discriminate]. exists 0. cbn. split; [lia | reflexivity].
  - destruct (exists_last (l := t)) as [t' [b ->]];
      [intros ->; discriminate|].
    rewrite length_app in Hlen. cbn in Hlen.
    destruct (IH t') as [i [Hi Hbits]]; [lia|].
    exists (Nat.b2n b + i * 2). split.
    + rewrite Nat.pow_succ_r'. destruct b; cbn [Nat.b2n]; lia.
    + cbn [bits].
      rewrite Nat.div2_div, Nat.div_add by discriminate.
      rewrite (Nat.mul_comm i 2), Nat.odd_add_mul_2.
      replace (Nat.b2n b / 2) with 0 by (now destruct b).
      replace (Nat.odd (Nat.b2n b)) with b by (now destruct b).
      cbn [Nat.add]. now rewrite Hbits.
Qed.

End Product.

(** ** The rows of a table *)

Lemma append_assoc (a b c : string) : ((a ++ b) ++ c = a ++ (b ++ c))%string.
Proof. induction a as [|x a IH]; cbn; [reflexivity | now rewrite IH]. Qed.

Lemma append_nil_r (a : string) : (a ++ "")%string = a.
Proof. induction a as [|x a IH]; cbn; [reflexivity | now rewrite IH]. Qed.

Lemma requested_spec (l : list string) (vars : dict bool)
      (row : string) (valid_row : bool) :
  requested l vars row valid_row
  = (bs <- lookup_all l vars ;;
     Ok ((row ++ digits bs)%string, valid_row || existsb (fun b => b) bs)).
Proof.
  revert row valid_row. induction l as [|id l IH]; intros row valid_row; cbn.
  - now rewrite append_nil_r, orb_false_r.
  - destruct (dict_get vars id) as [b|]; [|reflexivity].
    rewrite IH. destruct (lookup_all l vars) as [bs|e]; cbn; [|reflexivity].
    rewrite append_assoc. do 2 f_equal. now destruct b, valid_row.
Qed.

Lemma lookup_all_exists (l : list string) (vars : dict bool) (bs : list bool) :
  lookup_all l vars = Ok bs ->
  existsb (fun id => match dict_get vars id with Some b => b | None => false end) l
  = existsb (fun b => b) bs.
Proof.
  revert bs. induction l as [|id l IH]; intros bs; cbn.
  - intros [= <-]. reflexivity.
  - destruct (dict_get vars id) as [b|]; [|discriminate].
    destruct (lookup_all l vars) as [bs'|e]; cbn; [|discriminate].
    intros [= <-]. cbn. now rewrite (IH bs').
Qed.

Lemma skipn_nth_error {A : Type} (l : list A) (a : nat) (x : A) :
  nth_error l a = Some x -> skipn a l = x :: skipn (S a) l.
Proof.
  revert a. induction l as [|y l IH]; intros a.
  - now destruct a.
  - destruct a as [|a]; cbn.
    + now intros [= ->].
    + intros H. now rewrite (IH a H).
Qed.

Lemma Forall2_nth_error {A B : Type} (R : A -> B -> Prop)
      (l1 : list A) (l2 : list B) (i : nat) (a : A) :
  Forall2 R l1 l2 -> nth_error l1 i = Some a ->
  exists b, nth_error l2 i = Some b /\ R a b.
Proof.
  intros H. revert i. induction H as [|x y l1 l2 Hxy H IH]; intros i.
  - now destruct i.
  - destruct i as [|i]; cbn.
    + intros [= <-]. now exists y.
    + apply IH.
Qed.

Section ShowFacts.

Variable self : Compiler.
Variable ids_to_show : list string.

Lemma show_row_spec (show_ones : bool) (tuple : list bool) :
  show_row self ids_to_show show_ones tuple
  = (env <- row_env self tuple ;;
     bs <- lookup_all ids_to_show env ;;
     Ok (if negb show_ones || existsb (fun b => b) bs
         then Some (row_head self tuple ++ digits bs)%string
         else None)).
Proof.
  unfold show_row, row_env, row_head.
  destruct (eval_ids _ _) as [env|e]; cbn [bind]; [|reflexivity].
  rewrite requested_spec.
  destruct (lookup_all ids_to_show env) as [bs|e]; reflexivity.
Qed.

Lemma show_loop_seq (show_ones : bool) (vars_value : list (list bool))
      (a len : nat) :
  a + len <= List.length vars_value ->
  show_loop self ids_to_show show_ones vars_value (seq a len)
  = show_rows self ids_to_show show_ones (firstn len (skipn a vars_value)).
Proof.
  revert a. induction len as [|len IH]; intros a Hlen; [reflexivity|].
  cbn [seq show_loop].
  destruct (nth_error vars_value a) as [tuple|] eqn:Hnth.
  - rewrite (skipn_nth_error _ _ _ Hnth). cbn [firstn show_rows].
    rewrite IH by lia. reflexivity.
  - apply nth_error_None in Hnth. lia.
Qed.

Lemma show_unfold (show_ones : bool) :
  _show self ids_to_show show_ones
  = io_bind (print (header self ids_to_show))
            (fun _ => show_rows self ids_to_show show_ones
                        (product [false; true] (List.length (vars self)))).
Proof.
  unfold _show, io_bind, print. cbv beta zeta.
  rewrite show_loop_seq by (rewrite product_length; lia).
  rewrite <- product_length. cbn [skipn]. now rewrite firstn_all.
Qed.

Lemma io_bind_print (line : string) (m : io unit) :
  io_bind (print line) (fun _ => m) = (line :: fst m, snd m).
Proof. now destruct m. Qed.

(** The unfiltered rows and the filtered ones, for the same tuples. *)
Lemma show_rows_filter (tuples : list (list bool)) :
  exists (rows : list (list bool * string)) (st : result unit),
    show_rows self ids_to_show false tuples = (map snd rows, st) /\
    show_rows self ids_to_show true tuples
    = (map snd (filter (fun r => requested_true self ids_to_show (fst r)) rows), st) /\
    map fst rows = firstn (List.length rows) tuples /\
    (st = Ok tt -> List.length rows = List.length tuples).
Proof.
  induction tuples as [|tuple tuples [rows [st [Hall [Hones [Hfst Hlen]]]]]].
  - exists [], (Ok tt). repeat split.
  - cbn [show_rows]. rewrite !show_row_spec.
    destruct (row_env self tuple) as [env|e] eqn:Henv; cbn [bind].
    2:{ exists [], (Raise e). repeat split. discriminate. }
    destruct (lookup_all ids_to_show env) as [bs|e] eqn:Hbs; cbn [bind].
    2:{ exists [], (Raise e). repeat split. discriminate. }
    assert (Htrue : requested_true self ids_to_show tuple = existsb (fun b => b) bs).
    { unfold requested_true. rewrite Henv. now apply lookup_all_exists. }
    exists ((tuple, (row_head self tuple ++ digits bs)%string) :: rows), st.
    cbn [negb orb]. rewrite !io_bind_print, Hall.
    cbn [map fst snd filter List.length firstn].
    rewrite Htrue, <- Hfst.
    split; [reflexivity|]. split; [|split; [reflexivity|]].
    + destruct (existsb (fun b => b) bs).
      * now rewrite io_bind_print, Hones.
      * exact Hones.
    + intros Hst. now rewrite Hlen.
Qed.

(** The unfiltered rows when no exception is raised. *)
Lemma show_rows_all (tuples : list (list bool)) (out : list string) :
  show_rows self ids_to_show false tuples = (out, Ok tt) ->
  Forall2 (fun tuple line =>
             exists env bs,
               row_env self tuple = Ok env /\
               lookup_all ids_to_show env = Ok bs /\
               line = (row_head self tuple ++ digits bs)%string)
          tuples out.
Proof.
  revert out. induction tuples as [|tuple tuples IH]; intros out.
  - cbn. intros [= <-]. constructor.
  - cbn [show_rows]. rewrite show_row_spec.
    destruct (row_env self tuple) as [env|e] eqn:Henv; cbn [bind];
      [|discriminate].
    destruct (lookup_all ids_to_show env) as [bs|e] eqn:Hbs; cbn [bind];
      [|discriminate].
    cbn [negb orb]. rewrite io_bind_print.
    destruct (show_rows self ids_to_show false tuples) as [out' st'] eqn:Hrest.
    cbn [fst snd]. intros [= <- ->].
    constructor; [|now apply IH].
    now exists env, bs.
Qed.

End ShowFacts.

(** ** Dictionaries built from distinct keys *)

Section DictFacts.

Context {V : Type}.

Lemma dict_set_fresh (d : dict V) (k : string) (v : V) :
  ~ In k (keys d) -> dict_set d k v = d ++ [(k, v)].
Proof.
  induction d as [|[k' v'] d IH]; cbn; intros Hk; [reflexivity|].
  destruct (String.eqb_spec k' k) as [->|_]; [tauto|].
  rewrite IH by tauto. reflexivity.
Qed.

Lemma dict_of_distinct (acc pairs : list (string * V)) :
  NoDup (keys acc ++ map fst pairs) ->
  fold_left (fun d kv => dict_set d (fst kv) (snd kv)) pairs acc
  = acc ++ pairs.
Proof.
  revert acc. induction pairs as [|[k v] pairs IH]; intros acc Hnd; cbn.
  - now rewrite app_nil_r.
  - rewrite dict_set_fresh.
    + rewrite IH.
      * now rewrite <- app_assoc.
      * unfold keys in *. rewrite map_app, <- app_assoc. exact Hnd.
    + cbn in Hnd. apply NoDup_remove_2 in Hnd.
      intros Hin. apply Hnd. apply in_or_app. now left.
Qed.

Lemma combine_fst (l : list string) (l' : list V) :
  List.length l = List.length l' -> map fst (combine l l') = l.
Proof.
  revert l'. induction l as [|x l IH]; intros [|y l']; cbn;
    try discriminate; [reflexivity|].
  intros [= H]. now rewrite IH.
Qed.

Lemma combine_snd (l : list string) (l' : list V) :
  List.length l = List.length l' -> map snd (combine l l') = l'.
Proof.
  revert l'. induction l as [|x l IH]; intros [|y l']; cbn;
    try discriminate; [reflexivity|].
  intros [= H]. now rewrite IH.
Qed.

(** [dict(zip(names, values))] for distinct names. *)
Lemma dict_of_zip (names : list string) (values : list V) :
  NoDup names -> List.length names = List.length values ->
  dict_of (combine names values) = combine names values.
Proof.
  intros Hnd Hlen. unfold dict_of.
  rewrite dict_of_distinct; [reflexivity|].
  cbn. now rewrite combine_fst.
Qed.

End DictFacts.

Lemma fold_digits (d : dict bool) (row : string) :
  fold_left (fun row v => (row ++ digit (snd v))%string) d row
  = (row ++ digits (map snd d))%string.
Proof.
  revert row. induction d as [|v d IH]; intros row; cbn.
  - now rewrite append_nil_r.
  - now rewrite IH, append_assoc.
Qed.

(** With distinct variables the row starts with a space, the digits of
    the tuple and two spaces. *)
Lemma row_head_digits (self : Compiler) (tuple : list bool) :
  NoDup (vars self) -> List.length tuple = List.length (vars self) ->
  row_head self tuple = (" " ++ digits tuple ++ "  ")%string.
Proof.
  intros Hnd Hlen. unfold row_head.
  rewrite dict_of_zip, fold_digits, combine_snd by congruence.
  now rewrite append_assoc.
Qed.

(** ** Evaluation of well-formed trees *)

Section EvalFacts.

Variable variables : dict bool.

Lemma eval_and (cs : list Node) :
  eval (mkNode "and" cs) variables
  = if List.length cs <? 2 then Raise MalformedNode
    else all_children (map (fun c => eval c variables) cs).
Proof.
  unfold Nat.ltb. cbn. destruct (Nat.leb _ _); [reflexivity|].
  induction cs as [|c cs IH]; [reflexivity|].
  cbn [map all_children]. destruct (eval c variables) as [b|e]; [|reflexivity].
  destruct (negb b); [reflexivity | exact IH].
Qed.

Lemma eval_or (cs : list Node) :
  eval (mkNode "or" cs) variables
  = if List.length cs <? 2 then Raise MalformedNode
    else any_child (map (fun c => eval c variables) cs).
Proof.
  unfold Nat.ltb. cbn. destruct (Nat.leb _ _); [reflexivity|].
  induction cs as [|c cs IH]; [reflexivity|].
  cbn [map any_child]. destruct (eval c variables) as [b|e]; [|reflexivity].
  destruct b; [reflexivity | exact IH].
Qed.

Lemma all_children_ok (rs : list (result bool)) :
  Forall (fun r => exists b, r = Ok b) rs -> exists b, all_children rs = Ok b.
Proof.
  induction 1 as [|r rs [b ->] _ IH]; cbn; [now exists true|].
  destruct (negb b); [now exists false | exact IH].
Qed.

Lemma any_child_ok (rs : list (result bool)) :
  Forall (fun r => exists b, r = Ok b) rs -> exists b, any_child rs = Ok b.
Proof.
  induction 1 as [|r rs [b ->] _ IH]; cbn; [now exists false|].
  destruct b; [now exists true | exact IH].
Qed.

Lemma children_ok (names : list string) (cs : list Node) :
  Forall (fun c => well_formed names c = true ->
                   exists b, eval c variables = Ok b) cs ->
  forallb (well_formed names) cs = true ->
  Forall (fun r => exists b, r = Ok b) (map (fun c => eval c variables) cs).
Proof.
  induction 1 as [|c cs Hc _ IH]; cbn; intros Hwf; constructor.
  - apply Hc. apply andb_prop in Hwf. tauto.
  - apply IH. apply andb_prop in Hwf. tauto.
Qed.

(** A well-formed tree evaluates to a boolean when its names are bound. *)
Lemma eval_well_formed (names : list string) (n : Node) :
  bound variables names -> well_formed names n = true ->
  exists b, eval n variables = Ok b.
Proof.
  intros Hbound. induction n as [v cs IH] using Node_children_ind.
  cbn [well_formed].
  destruct (String.eqb_spec v "and") as [->|Hand]; cbn [orb].
  { intros Hwf. apply andb_prop in Hwf. destruct Hwf as [Hlen Hwf].
    rewrite eval_and. apply Nat.leb_le in Hlen.
    replace (List.length cs <? 2) with false
      by (symmetry; apply Nat.ltb_ge; exact Hlen).
    apply all_children_ok. now apply (children_ok names). }
  destruct (String.eqb_spec v "or") as [->|Hor].
  { intros Hwf. apply andb_prop in Hwf. destruct Hwf as [Hlen Hwf].
    rewrite eval_or. apply Nat.leb_le in Hlen.
    replace (List.length cs <? 2) with false
      by (symmetry; apply Nat.ltb_ge; exact Hlen).
    apply any_child_ok. now apply (children_ok names). }
  destruct (String.eqb_spec v "not") as [->|Hnot].
  { destruct cs as [|c cs]; [intros H; discriminate H|]. intros Hwf.
    inversion IH as [|? ? Hc _]; subst.
    destruct (Hc Hwf) as [b Hb]. cbn. rewrite Hb. now exists (negb b). }
  intros Hwf. cbn [eval].
  apply String.eqb_neq in Hand, Hor, Hnot. rewrite Hand, Hor, Hnot.
  destruct (String.eqb_spec v "True") as [->|HT]; [now exists true|].
  destruct (String.eqb_spec v "False") as [->|HF]; [now exists false|].
  assert (Hin : In v names).
  { apply mem_In. cbn in Hwf.
    apply String.eqb_neq in HT, HF. now rewrite HT, HF in Hwf. }
  specialize (Hbound v Hin).
  destruct (dict_get variables v) as [b|]; [now exists b | congruence].
Qed.

End EvalFacts.

(** ** The tree built from a validated expression *)

Lemma level_after_operand (running : Z) (clause : option string) (c : nat) :
  level_ok running clause c -> running <> 0%Z -> level_ok 0 clause (S c).
Proof.
  intros H Hr. inversion H; subst; try congruence.
  - constructor.
  - constructor.
  - constructor; [assumption | lia].
Qed.

Lemma level_at_not (clause : option string) (c : nat) :
  level_ok (-1) clause c -> clause = None /\ c = 0.
Proof. intros H. inversion H; subst. now split. Qed.

Lemma level_after_binary (clause : option string) (c : nat) (token : string) :
  level_ok 0 clause c -> token = "and" \/ token = "or" ->
  conflicts clause token = false ->
  level_ok 1 (Some token) c /\
  match clause with None => Some token | Some _ => clause end = Some token.
Proof.
  intros H Htok Hconf. inversion H; subst.
  - split; [constructor; [assumption | lia] | reflexivity].
  - destruct Htok as [-> | ->]; discriminate Hconf.
  - cbn in Hconf. apply negb_false_iff, String.eqb_eq in Hconf. subst.
    split; [constructor; [assumption | lia] | reflexivity].
Qed.

Section SortFacts.

Variable P : Node -> bool.

Lemma insert_by_depth_length (x : Node) (l : list Node) :
  List.length (insert_by_depth x l) = S (List.length l).
Proof.
  induction l as [|y l IH]; cbn; [reflexivity|].
  destruct (depth x <=? depth y); cbn; [reflexivity | now rewrite IH].
Qed.

Lemma insert_by_depth_forallb (x : Node) (l : list Node) :
  P x = true -> forallb P l = true -> forallb P (insert_by_depth x l) = true.
Proof.
  intros Hx. induction l as [|y l IH]; cbn; intros Hl.
  - now rewrite Hx.
  - apply andb_prop in Hl. destruct Hl as [Hy Hl].
    destruct (depth x <=? depth y); cbn.
    + now rewrite Hx, Hy, Hl.
    + now rewrite Hy, IH.
Qed.

Lemma sorted_by_depth_length (l : list Node) :
  List.length (sorted_by_depth l) = List.length l.
Proof.
  unfold sorted_by_depth.
  induction l as [|x l IH]; cbn [fold_right]; [reflexivity|].
  rewrite insert_by_depth_length, IH. reflexivity.
Qed.

Lemma sorted_by_depth_forallb (l : list Node) :
  forallb P l = true -> forallb P (sorted_by_depth l) = true.
Proof.
  unfold sorted_by_depth.
  induction l as [|x l IH]; cbn [fold_right forallb]; [trivial|]. intros H.
  apply andb_prop in H. destruct H as [Hx Hl].
  apply insert_by_depth_forallb; [assumption | now apply IH].
Qed.

End SortFacts.

Section BuilderFacts.

Variables dv di : list string.

Hypothesis and_free : is_operand dv di "and" = false.
Hypothesis or_free : is_operand dv di "or" = false.
Hypothesis not_free : is_operand dv di "not" = false.

Lemma operand_not_connective (token : string) :
  is_operand dv di token = true -> mem token ["not"; "and"; "or"] = false.
Proof.
  intros H. apply mem_not_In. cbn. intros [<-|[<-|[<-|[]]]]; congruence.
Qed.

Lemma operand_leaf (token : string) :
  is_operand dv di token = true ->
  well_formed (dv ++ di) (mkNode token []) = true.
Proof.
  intros H. pose proof (operand_not_connective token H) as Hc.
  cbn in Hc. cbn [well_formed].
  destruct (String.eqb token "not"); [discriminate|].
  destruct (String.eqb token "and"); [discriminate|].
  destruct (String.eqb token "or"); [discriminate|].
  cbn [orb]. unfold is_operand in H. rewrite mem_app.
  destruct (mem token dv), (mem token di), (mem token ["True"; "False"]);
    cbn in *; congruence.
Qed.

(** At the end of a level the builder returns a well-formed tree. *)
Lemma build_tree_end (running : Z) (clause : option string)
      (children : list Node) :
  level_ok running clause (List.length children) ->
  running <> (-1)%Z -> (running >? 0)%Z = false ->
  forallb (well_formed (dv ++ di)) children = true ->
  exists t, build_tree [] children clause = Ok t /\
            well_formed (dv ++ di) t = true.
Proof.
  intros Hlevel Hne Hrun Hwf. rewrite build_tree_equation_1. cbv zeta.
  pose proof (sorted_by_depth_length children) as Hlen.
  pose proof (sorted_by_depth_forallb _ _ Hwf) as Hsorted.
  inversion Hlevel as [ | | op c Hop Hc | | | op c Hop Hc ];
    subst; try congruence; try discriminate.
  - (* one operand, no connective *)
    destruct (sorted_by_depth children) as [|t l]; [cbn in Hlen; lia|].
    exists t. split; [reflexivity|]. cbn in Hsorted.
    apply andb_prop in Hsorted. tauto.
  - (* a negated operand *)
    destruct (sorted_by_depth children) as [|t l]; [cbn in Hlen; lia|].
    eexists. split; [reflexivity|]. cbn in Hsorted |- *.
    apply andb_prop in Hsorted. tauto.
  - (* a chain of two operands or more *)
    eexists. split; [reflexivity|]. cbn [well_formed].
    replace (String.eqb op "and" || String.eqb op "or") with true
      by (destruct Hop as [-> | ->]; reflexivity).
    rewrite Hlen, Hsorted, andb_true_r. now apply Nat.leb_le.
Qed.

(** On an expression that the validator accepts, the builder, started in
    a state that matches the validator's, returns a well-formed tree. *)
Lemma build_tree_follows (n : nat) :
  forall (expr : list string) (running : Z) (clause : option string)
         (children : list Node),
    List.length expr <= n ->
    level_ok running clause (List.length children) ->
    forallb (well_formed (dv ++ di)) children = true ->
    (running = (-1)%Z -> expr <> []) ->
    check_valid dv di expr running clause = Ok tt ->
    exists t, build_tree expr children clause = Ok t /\
              well_formed (dv ++ di) t = true.
Proof.
  induction n as [|n IH]; intros expr running clause children Hlen Hlevel Hwf Hne.
  - destruct expr; [|cbn in Hlen; lia].
    rewrite check_valid_equation_1.
    destruct (running >? 0)%Z eqn:Hrun; [discriminate|]. intros _.
    apply (build_tree_end running); try assumption.
    intros ->. now apply Hne.
  - destruct expr as [|token rest].
    { rewrite check_valid_equation_1.
      destruct (running >? 0)%Z eqn:Hrun; [discriminate|]. intros _.
      apply (build_tree_end running); try assumption.
      intros ->. now apply Hne. }
    cbn [List.length] in Hlen.
    rewrite check_valid_equation_2, build_tree_equation_2.
    destruct (String.eqb_spec token "(") as [->|Hopen].
    { (* a parenthesised group *)
      destruct (Z.eqb_spec running 0) as [->|Hrun]; [discriminate|].
      destruct (find_close rest 1 0) as [k|]; [|discriminate].
      destruct (firstn k rest) as [|a inner] eqn:Hinner; [discriminate|].
      destruct (check_valid dv di (a :: inner) (-1) None) as [[]|e] eqn:Hin;
        [|discriminate].
      intros Hrest.
      destruct (IH (a :: inner) (-1)%Z None []) as [node [Hnode Hnwf]];
        try assumption.
      { rewrite <- Hinner, length_firstn. lia. }
      { constructor. }
      { reflexivity. }
      { discriminate. }
      rewrite Hnode.
      apply (IH _ 0%Z); try assumption.
      - rewrite length_skipn. lia.
      - rewrite length_app. cbn. rewrite Nat.add_1_r.
        now apply (level_after_operand running).
      - rewrite forallb_app, Hwf. cbn. now rewrite Hnwf.
      - discriminate. }
    destruct (String.eqb_spec token ")") as [->|Hclose]; [discriminate|].
    destruct (is_operand dv di token) eqn:Hop.
    { (* a declared name or a literal *)
      destruct (Z.eqb_spec running 0) as [->|Hrun]; [discriminate|].
      rewrite (operand_not_connective token Hop). intros Hrest.
      apply (IH _ 0%Z); try assumption.
      - lia.
      - rewrite length_app. cbn. rewrite Nat.add_1_r.
        now apply (level_after_operand running).
      - rewrite forallb_app, Hwf. cbn [forallb].
        now rewrite (operand_leaf token Hop).
      - discriminate. }
    destruct (String.eqb_spec token "not") as [->|Hnot].
    { (* the unary connective *)
      destruct (Z.eqb_spec running (-1)) as [->|Hrun]; cbn [negb];
        [|discriminate].
      destruct (level_at_not _ _ Hlevel) as [-> Hc]. cbn [conflicts mem existsb].
      cbn [String.eqb Ascii.eqb Bool.eqb orb]. intros Hrest.
      apply (IH _ 2%Z); try assumption.
      - lia.
      - rewrite Hc. constructor.
      - discriminate. }
    destruct (mem token ["and"; "or"]) eqn:Hbin; [|discriminate].
    (* a binary connective *)
    assert (Htok : token = "and" \/ token = "or").
    { apply mem_In in Hbin. cbn in Hbin. intuition congruence. }
    destruct (Z.eqb_spec running 0) as [->|Hrun]; cbn [negb]; [|discriminate].
    destruct (conflicts clause token) eqn:Hconf; [discriminate|].
    replace (mem token ["not"; "and"; "or"]) with true
      by (destruct Htok as [-> | ->]; reflexivity).
    destruct (level_after_binary _ _ _ Hlevel Htok Hconf) as [Hlevel' ->].
    intros Hrest.
    apply (IH _ 1%Z); try assumption.
    + lia.
    + discriminate.
Qed.

(** The tree built for the right-hand side of a validated assignment. *)
Lemma build_tree_validated (expr : list string) :
  expr <> [] ->
  check_valid_recursively dv di expr = Ok tt ->
  exists t, build_tree_recursively expr = Ok t /\
            well_formed (dv ++ di) t = true.
Proof.
  intros Hne Hcheck.
  apply (build_tree_follows (List.length expr) expr (-1)%Z None []);
    try assumption; try reflexivity.
  - constructor.
  - intros _. exact Hne.
Qed.

End BuilderFacts.

(** ** Rows of a compiler whose trees are in scope *)

Lemma well_formed_incl (names names' : list string) (n : Node) :
  incl names names' -> well_formed names n = true -> well_formed names' n = true.
Proof.
  intros Hincl. induction n as [v cs IH] using Node_children_ind.
  cbn [well_formed].
  destruct (String.eqb v "and" || String.eqb v "or").
  - intros H. apply andb_prop in H. destruct H as [Hlen Hcs].
    rewrite Hlen. cbn [andb].
    clear Hlen. induction IH as [|c cs Hc _ IHcs]; [reflexivity|].
    cbn in Hcs |- *. apply andb_prop in Hcs. destruct Hcs as [H1 H2].
    now rewrite (Hc H1), (IHcs H2).
  - destruct (String.eqb v "not").
    + destruct cs as [|c cs]; [trivial|]. inversion IH; subst. assumption.
    + intros H. apply orb_prop in H. destruct H as [H|H].
      * now rewrite H.
      * apply mem_In, Hincl, mem_In in H. rewrite H. apply orb_true_r.
Qed.

Lemma scoped_incl (names names' : list string) (l : dict Node) :
  incl names names' -> scoped names l = true -> scoped names' l = true.
Proof.
  revert names names'. induction l as [|[id tree] l IH]; intros names names' Hincl;
    cbn [scoped]; [trivial|].
  intros H. apply andb_prop in H. destruct H as [Ht Hl].
  rewrite (well_formed_incl names names' tree Hincl Ht). cbn [andb].
  apply (IH (names ++ [id])); [|assumption].
  apply incl_app; [now apply incl_appl | apply incl_appr, incl_refl].
Qed.

Lemma scoped_app (names : list string) (l : dict Node) (id : string) (tree : Node) :
  scoped names (l ++ [(id, tree)])
  = scoped names l && well_formed (names ++ keys l) tree.
Proof.
  revert names. induction l as [|[id' tree'] l IH]; intros names; cbn.
  - now rewrite app_nil_r, andb_true_r.
  - rewrite IH, <- app_assoc. cbn. now rewrite andb_assoc.
Qed.

Section Binding.

Lemma dict_get_set {V : Type} (d : dict V) (k k' : string) (v : V) :
  dict_get (dict_set d k v) k'
  = if String.eqb k k' then Some v else dict_get d k'.
Proof.
  induction d as [|[k0 v0] d IH]; cbn.
  - reflexivity.
  - destruct (String.eqb_spec k0 k) as [->|Hne]; cbn.
    + now destruct (String.eqb k k').
    + rewrite IH. destruct (String.eqb_spec k0 k') as [->|Hne'];
        [|reflexivity].
      apply not_eq_sym, String.eqb_neq in Hne. now rewrite Hne.
Qed.

Lemma bound_set (variables : dict bool) (names : list string)
      (id : string) (b : bool) :
  bound variables names -> bound (dict_set variables id b) (names ++ [id]).
Proof.
  intros H k Hk. rewrite dict_get_set.
  destruct (String.eqb_spec id k) as [->|Hne]; [discriminate|].
  apply H. apply in_app_or in Hk. destruct Hk as [Hk|[Hk|[]]]; congruence.
Qed.

Lemma bound_fold (pairs acc : list (string * bool)) (k : string) :
  In k (map fst pairs) \/ dict_get acc k <> None ->
  dict_get (fold_left (fun d kv => dict_set d (fst kv) (snd kv)) pairs acc) k
  <> None.
Proof.
  revert acc. induction pairs as [|[k0 v0] pairs IH]; intros acc H; cbn.
  - destruct H as [[]|H]. exact H.
  - apply IH. cbn [map fst In] in H. rewrite dict_get_set.
    destruct (String.eqb_spec k0 k) as [->|Hne].
    + right. discriminate.
    + destruct H as [[H|H]|H]; [congruence | now left | now right].
Qed.

(** After [dict(zip(self.vars, vars_value[i]))] every variable is bound. *)
Lemma bound_zip (names : list string) (values : list bool) :
  List.length names = List.length values ->
  bound (dict_of (combine names values)) names.
Proof.
  intros Hlen k Hk. apply bound_fold. left. now rewrite combine_fst.
Qed.

Lemma eval_ids_ok (l : dict Node) (names : list string) (variables : dict bool) :
  scoped names l = true -> bound variables names ->
  exists variables',
    eval_ids l variables = Ok variables' /\ bound variables' (names ++ keys l).
Proof.
  revert names variables.
  induction l as [|[id tree] l IH]; intros names variables Hs Hb; cbn.
  - exists variables. now rewrite app_nil_r.
  - cbn in Hs. apply andb_prop in Hs. destruct Hs as [Ht Hl].
    destruct (eval_well_formed variables names tree Hb Ht) as [b ->].
    cbn [bind].
    destruct (IH (names ++ [id]) (dict_set variables id b) Hl
                 (bound_set _ _ _ _ Hb)) as [variables' [Heval Hb']].
    exists variables'. split; [assumption|].
    now rewrite <- app_assoc in Hb'.
Qed.

Lemma lookup_all_ok (l names : list string) (variables : dict bool) :
  bound variables names -> (forall t, In t l -> In t names) ->
  exists bs, lookup_all l variables = Ok bs.
Proof.
  intros Hb. induction l as [|id l IH]; intros Hin; cbn.
  - now exists [].
  - specialize (Hb id (Hin id (or_introl eq_refl))).
    destruct (dict_get variables id) as [b|]; [|congruence].
    destruct IH as [bs ->]; [intros t Ht; apply Hin; now right|].
    now exists (b :: bs).
Qed.

End Binding.

Section ShowRuns.

Variable self : Compiler.
Variable ids_to_show : list string.
Variable show_ones : bool.

Hypothesis trees_scoped : scoped (vars self) (ids self) = true.
Hypothesis names_declared :
  forall t, In t ids_to_show -> In t (vars self ++ keys (ids self)).

Lemma show_row_ok (tuple : list bool) :
  List.length tuple = List.length (vars self) ->
  exists r, show_row self ids_to_show show_ones tuple = Ok r.
Proof.
  intros Hlen. rewrite show_row_spec. unfold row_env.
  destruct (eval_ids_ok (ids self) (vars self)
              (dict_of (combine (vars self) tuple)) trees_scoped)
    as [env [-> Hb]].
  { apply bound_zip. now symmetry. }
  cbn [bind].
  destruct (lookup_all_ok ids_to_show _ env Hb names_declared) as [bs ->].
  cbn [bind]. eexists. reflexivity.
Qed.

Lemma show_rows_ok (tuples : list (list bool)) :
  (forall tuple, In tuple tuples ->
                 List.length tuple = List.length (vars self)) ->
  exists out, show_rows self ids_to_show show_ones tuples = (out, Ok tt).
Proof.
  induction tuples as [|tuple tuples IH]; intros Hlen; cbn [show_rows].
  - now exists [].
  - destruct (show_row_ok tuple (Hlen tuple (or_introl eq_refl))) as [r ->].
    destruct IH as [out Hout]; [intros t Ht; apply Hlen; now right|].
    destruct r as [row|].
    + rewrite io_bind_print, Hout. now exists (row :: out).
    + now exists out.
Qed.

(** [_show] ends without exception. *)
Lemma show_ok :
  exists out, _show self ids_to_show show_ones = (out, Ok tt).
Proof.
  rewrite show_unfold, io_bind_print.
  destruct (show_rows_ok (product [false; true] (List.length (vars self))))
    as [out Hout].
  { intros tuple. apply product_tuple_length. }
  rewrite Hout. cbn. eexists. reflexivity.
Qed.

End ShowRuns.

(** ** Execution of a validated program *)

Section ValidatedRun.

Lemma check_declaration_ok (names dv di dv' : list string) :
  check_declaration names dv di = Ok dv' ->
  dv' = dv ++ names /\
  (forall t, In t names -> ~ In t reserved) /\
  (NoDup dv -> NoDup dv').
Proof.
  revert dv. induction names as [|t names IH]; intros dv;
    cbn [check_declaration].
  - intros [= <-]. rewrite app_nil_r.
    split; [reflexivity|]. split; [intros t [] | trivial].
  - destruct (mem t dv) eqn:Hdv; [discriminate|]. cbn [orb].
    destruct (mem t di); [discriminate|].
    destruct (mem t reserved) eqn:Hres; [discriminate|].
    destruct (64 <? List.length (dv ++ [t])); [discriminate|].
    intros H. destruct (IH _ H) as [Heq [Hn Hnd]].
    split; [now rewrite Heq, <- app_assoc|]. split.
    + intros t' [<-|Ht']; [now apply mem_not_In | now apply Hn].
    + intros Hdis. apply Hnd.
      apply NoDup_app; [assumption | repeat constructor; intros [] |].
      intros x Hx [<-|[]]. now apply mem_not_In in Hdv.
Qed.

Lemma check_display_ok (names dv di : list string) :
  check_display names dv di = Ok tt ->
  forall t, In t names -> In t (dv ++ di).
Proof.
  induction names as [|t names IH]; cbn [check_display]; [intros _ t []|].
  destruct (mem t di) eqn:Hdi; cbn [negb andb orb].
  - destruct (mem t not_shown); [discriminate|].
    intros H t' [<-|Ht']; [|now apply IH].
    apply in_or_app. right. now apply mem_In.
  - destruct (mem t dv) eqn:Hdv; cbn [negb orb]; [|discriminate].
    destruct (mem t not_shown); [discriminate|].
    intros H t' [<-|Ht']; [|now apply IH].
    apply in_or_app. left. now apply mem_In.
Qed.

Lemma declare_names (names vars : list string) :
  ~ In ";" names -> declare names vars = vars ++ names.
Proof.
  revert vars. induction names as [|t names IH]; intros vars Hno; cbn.
  - now rewrite app_nil_r.
  - destruct (String.eqb_spec t ";") as [->|_]; [exfalso; apply Hno; now left|].
    rewrite IH by (intros H; apply Hno; now right).
    now rewrite <- app_assoc.
Qed.

Lemma reserved_misread (t : string) : In t misread -> In t reserved.
Proof. cbn. intuition. Qed.

Lemma agrees_operand (dv di : list string) (self : Compiler) (t : string) :
  agrees dv di self -> In t ["and"; "or"; "not"] -> is_operand dv di t = false.
Proof.
  intros Ha Ht. unfold is_operand. rewrite <- mem_app.
  replace (mem t (dv ++ di)) with false.
  - cbn in Ht. destruct Ht as [<-|[<-|[<-|[]]]]; reflexivity.
  - symmetry. apply mem_not_In. intros Hin.
    apply (agrees_plain _ _ _ Ha t Hin). cbn in Ht |- *. intuition.
Qed.

(** One validated instruction: the executor raises nothing and its state
    still matches the validator's. *)
Lemma execute_instruction_ok (dv di : list string) (self : Compiler)
      (instr : list string) (rest : list (list string))
      (r : list string * list string) :
  agrees dv di self -> ~ In ";" instr -> plain_target instr = true ->
  check_loop (instr :: rest) dv di = Ok r ->
  exists dv' di' out self',
    execute_instruction self instr = (out, Ok self') /\
    agrees dv' di' self' /\
    check_loop rest dv' di' = Ok r.
Proof.
  intros Ha Hsemi Hplain. cbn [check_loop].
  destruct instr as [|i0 [|i1 args]]; try discriminate.
  cbn [execute_instruction].
  destruct (String.eqb_spec i0 "var") as [->|Hvar].
  { (* declaration *)
    destruct (check_declaration (i1 :: args) dv di) as [dv'|e] eqn:Hdecl;
      [|discriminate].
    cbn [bind]. intros Hrest.
    destruct (check_declaration_ok _ _ _ _ Hdecl) as [-> [Hres Hdis]].
    exists (dv ++ i1 :: args), di, [], (mkCompiler (dv ++ i1 :: args) (ids self)).
    split; [|split; [|assumption]].
    - rewrite declare_names, (agrees_vars _ _ _ Ha); [reflexivity|].
      intros H. apply Hsemi. now right.
    - destruct Ha as [Hv Hi Hs Hp Hnd]. constructor; cbn [vars ids].
      + reflexivity.
      + assumption.
      + apply (scoped_incl (vars self)); [|assumption].
        rewrite Hv. apply incl_appl, incl_refl.
      + intros t Ht Hmis. apply in_app_or in Ht. destruct Ht as [Ht|Ht].
        * apply in_app_or in Ht. destruct Ht as [Ht|Ht].
          -- apply (Hp t); [apply in_or_app; now left | assumption].
          -- apply (Hres t Ht). now apply reserved_misread.
        * apply (Hp t); [apply in_or_app; now right | assumption].
      + now apply Hdis. }
  cbn [List.length].
  destruct (String.eqb_spec i1 "=") as [->|Heq].
  { destruct args as [|a args].
    { (* [show =]: the name [=] is not declared *)
      cbn [Nat.leb andb].
      destruct (String.eqb i0 "show" || String.eqb i0 "show_ones");
        [|discriminate].
      destruct (check_display ["="] dv di) as [[]|e] eqn:Hdisp; [|discriminate].
      exfalso. apply (agrees_plain _ _ _ Ha "=").
      - apply (check_display_ok _ _ _ Hdisp). now left.
      - cbn. tauto. }
    (* assignment *)
    cbn [Nat.leb andb].
    destruct (mem i0 dv || mem i0 di) eqn:Hfresh; [discriminate|].
    destruct (check_valid_recursively dv di (a :: args)) as [[]|e] eqn:Hvalid;
      [|discriminate].
    cbn [bind]. intros Hrest.
    apply orb_false_elim in Hfresh. destruct Hfresh as [Hfv Hfi].
    rewrite (agrees_vars _ _ _ Ha), (agrees_ids _ _ _ Ha), Hfv, Hfi.
    cbn [negb andb].
    destruct (build_tree_validated dv di
                (agrees_operand _ _ _ "and" Ha ltac:(cbn; tauto))
                (agrees_operand _ _ _ "or" Ha ltac:(cbn; tauto))
                (agrees_operand _ _ _ "not" Ha ltac:(cbn; tauto))
                (a :: args) ltac:(discriminate) Hvalid)
      as [tree [-> Hwf]].
    exists dv, (di ++ [i0]), [], (mkCompiler dv (dict_set (ids self) i0 tree)).
    split; [reflexivity|]. split; [|assumption].
    destruct Ha as [Hv Hi Hs Hp Hnd].
    assert (Hset : dict_set (ids self) i0 tree = ids self ++ [(i0, tree)]).
    { apply dict_set_fresh. rewrite Hi. now apply mem_not_In. }
    constructor; cbn [vars ids].
    - reflexivity.
    - rewrite Hset. unfold keys in *. now rewrite map_app, Hi.
    - rewrite Hset, scoped_app, <- Hv, Hs. cbn [andb].
      fold (keys (ids self)). now rewrite Hi, Hv.
    - intros t Ht Hmis. rewrite app_assoc in Ht.
      apply in_app_or in Ht. destruct Ht as [Ht|[<-|[]]].
      + now apply (Hp t).
      + unfold plain_target in Hplain. rewrite String.eqb_refl in Hplain.
        apply mem_In in Hmis. now rewrite Hmis in Hplain.
    - assumption. }
  (* display *)
  rewrite andb_false_r.
  destruct (String.eqb i0 "show" || String.eqb i0 "show_ones");
    [|discriminate].
  destruct (check_display (i1 :: args) dv di) as [[]|e] eqn:Hdisp;
    [|discriminate].
  cbn [bind]. intros Hrest.
  pose proof (check_display_ok _ _ _ Hdisp) as Hdecl.
  destruct (show_ok self (i1 :: args) (String.eqb i0 "show_ones"))
    as [out Hout].
  { exact (agrees_scoped _ _ _ Ha). }
  { now rewrite (agrees_vars _ _ _ Ha), (agrees_ids _ _ _ Ha). }
  exists dv, di, out, self. rewrite Hout. cbn.
  rewrite app_nil_r. split; [reflexivity | split; assumption].
Qed.

Lemma execute_instructions_ok (instructions : list (list string)) :
  forall dv di self r,
    agrees dv di self ->
    Forall (fun instr => ~ In ";" instr) instructions ->
    forallb plain_target instructions = true ->
    check_loop instructions dv di = Ok r ->
    exists out self',
      _execute_instructions instructions self = (out, Ok self') /\
      agrees (fst r) (snd r) self'.
Proof.
  induction instructions as [|instr instructions IH];
    intros dv di self r Ha Hsemi Hplain Hcheck.
  - cbn in Hcheck. injection Hcheck as <-. now exists [], self.
  - inversion Hsemi as [|? ? Hs1 Hs2]; subst.
    cbn in Hplain. apply andb_prop in Hplain. destruct Hplain as [Hp1 Hp2].
    destruct (execute_instruction_ok dv di self instr instructions r
                Ha Hs1 Hp1 Hcheck)
      as [dv' [di' [out [self' [Hexec [Ha' Hrest]]]]]].
    destruct (IH dv' di' self' r Ha' Hs2 Hp2 Hrest)
      as [out' [self'' [Hexec' Ha'']]].
    exists (out ++ out'), self''. split; [|assumption].
    cbn [_execute_instructions]. rewrite Hexec. cbn. now rewrite Hexec'.
Qed.

Lemma split_loop_no_semicolon (tokens : list string)
      (instructions : list (list string)) (buffer : list string) :
  Forall (fun instr => ~ In ";" instr) instructions -> ~ In ";" buffer ->
  Forall (fun instr => ~ In ";" instr) (split_loop tokens instructions buffer).
Proof.
  revert instructions buffer.
  induction tokens as [|t tokens IH]; intros instructions buffer Hi Hb; cbn.
  - assumption.
  - destruct (String.eqb_spec t ";") as [->|Hne].
    + apply IH; [|intros []].
      apply Forall_app. split; [assumption | now constructor].
    + apply IH; [assumption|].
      intros H. apply in_app_or in H. destruct H as [H|[H|[]]]; congruence.
Qed.

End ValidatedRun.

(** * Main results *)

(** C1: on a compiler with [n] distinct variables, an unfiltered [show]
    ends without exception when the trees of the identifiers are in scope
    and the requested names are declared, as they are after the
    instructions of a validated program (lemma
    [execute_instructions_ok]); and whenever it ends without exception it
    has printed the header and then exactly [2 ^ n] rows.  Row [i] is the
    row of the [i]-th tuple of [product([False, True], repeat=n)], which
    is the binary writing of [i] on [n] digits, first variable first: the
    tuples come in lexicographic order, the last variable changes at
    every row, and every assignment of the [n] variables has its row. *)
Theorem show_prints_every_assignment
    (self : Compiler) (ids_to_show : list string) :
  NoDup (vars self) ->
  let n := List.length (vars self) in
  (scoped (vars self) (ids self) = true ->
   (forall t, In t ids_to_show -> In t (vars self ++ keys (ids self))) ->
   exists out, _show self ids_to_show false = (out, Ok tt)) /\
  (forall out,
     _show self ids_to_show false = (out, Ok tt) ->
     exists rows,
       out = header self ids_to_show :: rows /\
       List.length rows = 2 ^ n /\
       (forall i, i < 2 ^ n ->
          nth_error (product [false; true] n) i = Some (bits n i) /\
          exists env bs,
            row_env self (bits n i) = Ok env /\
            lookup_all ids_to_show env = Ok bs /\
            nth_error rows i
            = Some (" " ++ digits (bits n i) ++ "  " ++ digits bs)%string) /\
       (forall i j, i < j -> j < 2 ^ n -> lex_lt (bits n i) (bits n j)) /\
       (forall t, List.length t = n -> exists i, i < 2 ^ n /\ bits n i = t)).
Proof.
  intros Hnd. cbv zeta. split.
  { intros Hscoped Hdeclared. now apply show_ok. }
  intros out Hshow. rewrite show_unfold, io_bind_print in Hshow.
  set (n := List.length (vars self)) in *.
  destruct (show_rows self ids_to_show false (product [false; true] n))
    as [rows st] eqn:Hrows.
  cbn [fst snd] in Hshow. injection Hshow as <- ->.
  apply show_rows_all in Hrows.
  exists rows. split; [reflexivity|]. split; [|split; [|split]].
  - rewrite <- (Forall2_length Hrows). apply product_length.
  - intros i Hi. pose proof (product_nth n i Hi) as Hnth.
    split; [exact Hnth|].
    destruct (Forall2_nth_error _ _ _ _ _ Hrows Hnth)
      as [line [Hline [env [bs [Henv [Hbs ->]]]]]].
    exists env, bs. repeat split; try assumption.
    rewrite Hline, row_head_digits, append_assoc, append_assoc;
      [reflexivity | assumption | apply bits_length].
  - intros i j Hij Hj. now apply bits_inj_lt.
  - apply bits_onto.
Qed.

Lemma show_prints_every_assignment_witness :
  exists rows,
    _show example_compiler ["z"] false
    = (header example_compiler ["z"] :: rows, Ok tt) /\
    List.length rows = 4.
Proof.
  assert (Hnd : NoDup (vars example_compiler))
    by (apply distinct_NoDup; reflexivity).
  destruct (show_prints_every_assignment example_compiler ["z"] Hnd)
    as [Hruns Hrows].
  destruct Hruns as [out Hout].
  { reflexivity. }
  { intros t [<-|[]]. cbn. tauto. }
  destruct (Hrows out Hout) as [rows [Heq [Hlen _]]].
  exists rows. split; [now rewrite <- Heq | exact Hlen].
Defined.

(** C2 does not hold as stated: [not not x] uses a declared operand and
    one kind of connective, and is refused, as is [x and not y]; [not] is
    accepted as the first token of a level only. *)
Lemma nested_not_refused :
  check_valid_recursively ["x"] [] ["not"; "not"; "x"] = Raise InvalidSyntax /\
  check_valid_recursively ["x"; "y"] [] ["x"; "and"; "not"; "y"]
  = Raise InvalidSyntax.
Proof. split; reflexivity. Qed.

(** C2, amended: when no connective is a declared name, the validator
    accepts every expression in which each level is one operand, [not]
    followed by one operand, or operands separated by the same binary
    connective, the operands being declared names, literals and
    parenthesised levels; it raises [OperatorConflict] at the first
    binary connective that differs from the ones before it on its level;
    it refuses a [not] read in any state but the initial one of a level;
    and besides the empty expression, which an assignment never passes to
    it, it accepts no expression outside these levels. *)
Theorem validator_accepts_levels (dv di : list string) :
  is_operand dv di "and" = false ->
  is_operand dv di "or" = false ->
  is_operand dv di "not" = false ->
  (forall e, derives dv di Expr e -> check_valid_recursively dv di e = Ok tt) /\
  (forall c1 c2 pre post,
      derives dv di (Chain c1) pre ->
      c2 = "and" \/ c2 = "or" -> c2 <> c1 ->
      check_valid_recursively dv di (pre ++ c2 :: post)
      = Raise OperatorConflict) /\
  (forall rest running clause,
      running <> (-1)%Z ->
      check_valid dv di ("not" :: rest) running clause = Raise InvalidSyntax) /\
  (forall e, check_valid_recursively dv di e = Ok tt ->
             e = [] \/ derives dv di Expr e).
Proof.
  intros Hand Hor Hnot. split; [|split; [|split]].
  - intros e He.
    destruct (derives_shape dv di Hand Hor Hnot _ _ He) as [_ [_ H]].
    exact H.
  - intros c1 c2 pre post Hpre Hc2 Hneq.
    destruct (derives_shape dv di Hand Hor Hnot _ _ Hpre) as [_ [_ [Hc1 H]]].
    unfold check_valid_recursively.
    rewrite H by (discriminate || reflexivity).
    rewrite check_valid_connective by assumption.
    cbn. apply not_eq_sym in Hneq. apply String.eqb_neq in Hneq.
    now rewrite Hneq.
  - intros rest running clause Hrun.
    rewrite check_valid_equation_2. cbn [String.eqb Ascii.eqb Bool.eqb].
    rewrite Hnot. apply Z.eqb_neq in Hrun. now rewrite Hrun.
  - apply check_valid_derives.
Qed.

Lemma validator_accepts_levels_witness :
  check_valid_recursively ["x"; "y"; "z"] []
    ["not"; "("; "x"; "and"; "y"; "and"; "True"; ")"] = Ok tt /\
  check_valid_recursively ["x"; "y"; "z"] [] ["x"; "and"; "y"; "or"; "z"]
  = Raise OperatorConflict.
Proof.
  pose (dv := ["x"; "y"; "z"]).
  assert (Hx : derives dv [] Operand ["x"])
    by (apply d_name; [reflexivity | discriminate | discriminate]).
  assert (Hy : derives dv [] Operand ["y"])
    by (apply d_name; [reflexivity | discriminate | discriminate]).
  assert (Ht : derives dv [] Operand ["True"])
    by (apply d_name; [reflexivity | discriminate | discriminate]).
  destruct (validator_accepts_levels dv [] eq_refl eq_refl eq_refl)
    as [Hok [Hmix _]].
  split.
  - apply Hok. apply d_not.
    apply (d_paren dv [] ["x"; "and"; "y"; "and"; "True"]).
    apply d_and.
    apply (d_more dv [] "and" ["x"] ["y"; "and"; "True"] Hx).
    exact (d_two dv [] "and" ["y"] ["True"] (or_introl eq_refl) Hy Ht).
  - apply (Hmix "and" "or" ["x"; "and"; "y"] ["z"]).
    + exact (d_two dv [] "and" ["x"] ["y"] (or_introl eq_refl) Hx Hy).
    + now right.
    + discriminate.
Defined.

(** C3 does not hold as stated: the printed text is not the header
    [# x y   z] followed by the rows [0 0   0], [0 1   0], [1 0   0],
    [1 1   1]. *)
Lemma example_output_not_as_claimed :
  fst (compile example_source)
  <> ["# x y   z"; "0 0   0"; "0 1   0"; "1 0   0"; "1 1   1"].
Proof. vm_compute. discriminate. Qed.

(** C3, amended: every requested name gets a column after the variables,
    also a requested variable, and each row starts with two spaces. *)
Theorem example_output :
  compile example_source
  = (["# x y   x y z";
      "  0 0   0 0 0";
      "  0 1   0 1 0";
      "  1 0   1 0 0";
      "  1 1   1 1 1"], Ok tt).
Proof. vm_compute. reflexivity. Qed.

(** C4: [show_ones] prints the header and, of the rows that the
    unfiltered [show] prints for the same compiler and the same names,
    exactly those on which some requested name is true; both stop at the
    same tuple with the same exception, if any. *)
Theorem show_ones_filters (self : Compiler) (ids_to_show : list string) :
  exists (rows : list (list bool * string)) (st : result unit),
    _show self ids_to_show false
    = (header self ids_to_show :: map snd rows, st) /\
    _show self ids_to_show true
    = (header self ids_to_show
         :: map snd (filter (fun r => requested_true self ids_to_show (fst r))
                            rows), st) /\
    map fst rows
    = firstn (List.length rows)
             (product [false; true] (List.length (vars self))) /\
    (st = Ok tt -> List.length rows = 2 ^ List.length (vars self)).
Proof.
  destruct (show_rows_filter self ids_to_show
              (product [false; true] (List.length (vars self))))
    as [rows [st [Hall [Hones [Hfst Hlen]]]]].
  exists rows, st. rewrite !show_unfold, !io_bind_print, Hall, Hones.
  repeat split; try assumption.
  intros Hst. rewrite Hlen by assumption. apply product_length.
Qed.

(** C5: when the lexer raises, or the validator raises on the split
    instructions, [compile] raises the same exception and has printed
    nothing. *)
Theorem compile_fail_fast (f : string) (e : error) :
  (_tokenize f = Raise e \/
   exists tokens, _tokenize f = Ok tokens /\
                  _check_instructions (_split_instructions tokens) = Raise e) ->
  compile f = ([], Raise e).
Proof.
  unfold compile. intros [H | [tokens [Ht Hc]]].
  - now rewrite H.
  - now rewrite Ht, Hc.
Qed.

Lemma compile_fail_fast_witness :
  compile "var x; y = x and;" = ([], Raise InvalidAssignment) /\
  compile "var x; show x; y = x and;" = ([], Raise InvalidAssignment).
Proof.
  split.
  - apply compile_fail_fast. right.
    exists ["var"; "x"; ";"; "y"; "="; "x"; "and"; ";"].
    split; reflexivity.
  - apply compile_fail_fast. right.
    exists ["var"; "x"; ";"; "show"; "x"; ";"; "y"; "="; "x"; "and"; ";"].
    split; reflexivity.
Defined.

(** Conversely, a run that prints a line has passed the lexer and the
    validator on all its instructions. *)
Lemma compile_output_validated (f : string) :
  fst (compile f) <> [] ->
  exists tokens,
    _tokenize f = Ok tokens /\
    _check_instructions (_split_instructions tokens)
    = Ok (_split_instructions tokens).
Proof.
  unfold compile. destruct (_tokenize f) as [tokens|e]; cbn; [|congruence].
  intros H. exists tokens. split; [reflexivity|].
  unfold _check_instructions in *.
  destruct (check_loop (_split_instructions tokens) [] []); cbn in *;
    [reflexivity | congruence].
Qed.

(** C6: in a declaration [var pre... t post...] whose names [pre] are
    accepted (distinct, fresh, not reserved, at most 64 variables with
    them), the next name [t] raises [DuplicateName] when it is already a
    variable, an identifier or one of [pre]; otherwise [ReservedName] when
    it is reserved; otherwise [TooManyVariables] when it is the 65th
    variable; and the declaration of [pre] alone is accepted and adds
    [pre], in order, to the declared variables. *)
Theorem declaration_checks
    (dv di pre : list string) (t : string) (post : list string)
    (rest : list (list string)) :
  fresh_names dv di pre -> List.length dv + List.length pre <= 64 ->
  (In t (dv ++ di ++ pre) ->
     check_loop (("var" :: pre ++ t :: post) :: rest) dv di
     = Raise DuplicateName) /\
  (~ In t (dv ++ di ++ pre) -> In t reserved ->
     check_loop (("var" :: pre ++ t :: post) :: rest) dv di
     = Raise ReservedName) /\
  (~ In t (dv ++ di ++ pre) -> ~ In t reserved ->
     List.length dv + List.length pre = 64 ->
     check_loop (("var" :: pre ++ t :: post) :: rest) dv di
     = Raise TooManyVariables) /\
  (pre <> [] ->
     check_declaration pre dv di = Ok (dv ++ pre) /\
     check_loop (("var" :: pre) :: rest) dv di
     = check_loop rest (dv ++ pre) di).
Proof.
  intros Hf Hlen.
  assert (Hne : pre ++ t :: post <> []) by (destruct pre; discriminate).
  assert (Hdecl : check_declaration pre dv di = Ok (dv ++ pre)).
  { rewrite <- (app_nil_r pre) at 1. now rewrite check_declaration_app. }
  repeat split.
  - intros Hin. rewrite check_loop_var, check_declaration_app by assumption.
    cbn [check_declaration].
    replace (mem t (dv ++ pre) || mem t di) with true; [reflexivity|].
    symmetry. rewrite <- mem_app. apply mem_In.
    rewrite !in_app_iff in *. tauto.
  - intros Hnot Hres.
    rewrite check_loop_var, check_declaration_app by assumption.
    cbn [check_declaration].
    replace (mem t (dv ++ pre) || mem t di) with false.
    + apply mem_In in Hres. now rewrite Hres.
    + symmetry. rewrite <- mem_app. apply mem_not_In.
      rewrite !in_app_iff in *. tauto.
  - intros Hnot Hres H64.
    rewrite check_loop_var, check_declaration_app by assumption.
    cbn [check_declaration].
    replace (mem t (dv ++ pre) || mem t di) with false.
    + apply mem_not_In in Hres. rewrite Hres.
      replace (64 <? List.length ((dv ++ pre) ++ [t])) with true;
        [reflexivity|].
      symmetry. apply Nat.ltb_lt. rewrite !length_app. cbn. lia.
    + symmetry. rewrite <- mem_app. apply mem_not_In.
      rewrite !in_app_iff in *. tauto.
  - assumption.
  - rewrite check_loop_var by assumption. now rewrite Hdecl.
Qed.

Lemma declaration_checks_witness :
  check_loop [["var"; "x"; "y"; "x"]] [] [] = Raise DuplicateName /\
  check_loop [["var"; "x"; "show"]] [] [] = Raise ReservedName /\
  check_loop [("var" :: sixty_four_names ++ ["w"])] [] []
  = Raise TooManyVariables /\
  check_loop [("var" :: sixty_four_names)] [] [] = Ok (sixty_four_names, []).
Proof.
  assert (Hxy : fresh_names [] [] ["x"; "y"])
    by (apply fresh_names_check; reflexivity).
  assert (Hx : fresh_names [] [] ["x"])
    by (apply fresh_names_check; reflexivity).
  assert (H64 : fresh_names [] [] sixty_four_names)
    by (apply fresh_names_check; reflexivity).
  split; [|split; [|split]].
  - refine (proj1 (declaration_checks [] [] ["x"; "y"] "x" [] [] Hxy _) _).
    + cbn. lia.
    + cbn. tauto.
  - refine (proj1 (proj2 (declaration_checks [] [] ["x"] "show" [] [] Hx _)) _ _).
    + cbn. lia.
    + apply mem_not_In. reflexivity.
    + apply mem_In. reflexivity.
  - refine (proj1 (proj2 (proj2
             (declaration_checks [] [] sixty_four_names "w" [] [] H64 _))) _ _ _).
    + cbn. lia.
    + apply mem_not_In. reflexivity.
    + apply mem_not_In. reflexivity.
    + reflexivity.
  - refine (proj2 (proj2 (proj2 (proj2
             (declaration_checks [] [] sixty_four_names "w" [] [] H64 _))) _)).
    + cbn. lia.
    + discriminate.
Defined.

(** C7 does not hold as stated: an instruction at the end of the text
    with no [;] after it is neither executed nor validated; the same text
    with the [;] is. *)
Lemma unterminated_instruction_ignored :
  compile "var x; show x" = ([], Ok tt) /\
  compile "var x; show x;" = (["# x   x"; "  0   0"; "  1   1"], Ok tt) /\
  compile "var x; bogus" = ([], Ok tt) /\
  compile "var x; bogus;" = ([], Raise InvalidInstruction).
Proof. repeat split. Qed.

(** C7, amended: the splitter emits one instruction per [;], made of the
    tokens since the previous [;]; the tokens after the last [;] are never
    emitted, and a run does not depend on them. *)
Theorem split_emits_terminated_only (instr tail : list string) :
  ~ In ";" instr -> ~ In ";" tail ->
  (forall rest,
      _split_instructions (instr ++ ";" :: rest)
      = instr :: _split_instructions rest) /\
  (forall tokens,
      _split_instructions (tokens ++ tail) = _split_instructions tokens) /\
  (forall f f' tokens,
      _tokenize f = Ok (tokens ++ tail) -> _tokenize f' = Ok tokens ->
      compile f = compile f').
Proof.
  intros Hinstr Htail. unfold _split_instructions. repeat split.
  - intros rest. rewrite split_loop_instruction by assumption.
    now rewrite split_loop_acc.
  - intros tokens. now apply split_loop_tail.
  - intros f f' tokens Hf Hf'. unfold compile, _split_instructions.
    rewrite Hf, Hf'. now rewrite split_loop_tail.
Qed.

Lemma split_emits_terminated_only_witness :
  _split_instructions (["var"; "x"] ++ ";" :: ["show"; "x"]) = [["var"; "x"]] /\
  compile "var x; show x y" = compile "var x;".
Proof.
  assert (H1 : ~ In ";" ["var"; "x"]).
  { cbn. intros [H|[H|[]]]; discriminate H. }
  assert (H2 : ~ In ";" ["show"; "x"]).
  { cbn. intros [H|[H|[]]]; discriminate H. }
  destruct (split_emits_terminated_only ["var"; "x"] ["show"; "x"] H1 H2)
    as [Ha [Hb Hc]].
  split.
  - rewrite Ha. reflexivity.
  - apply (Hc _ _ ["var"; "x"; ";"]); reflexivity.
Defined.

(** C8: the substitution removes a comment together with the newline
    that ends it, so the text before the [#] and the text after the
    newline reach the tokenizer joined.  On [ab#c], newline, [cd] the two
    words become the single word [abcd]: followed by [;] it comes out as
    one token, and alone (still in progress at the end of the text) as no
    token at all.  The two tokens [ab] and [cd] are not produced. *)
Theorem tokenize_comment_joins_words :
  (forall a c b,
      occurs "#" a = false -> occurs newline c = false ->
      sub_comments (a ++ String "#" (c ++ String newline b))
      = (a ++ sub_comments b)%string) /\
  sub_comments comment_between_words = "abcd" /\
  _tokenize (comment_between_words ++ ";")%string = Ok ["abcd"; ";"] /\
  _tokenize comment_between_words = Ok [].
Proof.
  split; [exact sub_comments_joins|]. repeat split.
Qed.

(** C9: a comment on the last line, with no newline after it, is not
    removed by the substitution, and its [#] is then refused by the
    tokenizer as an invalid character (unless the lexer has raised
    before). *)
Theorem tokenize_final_comment_raises :
  (forall pre c,
      occurs newline c = false ->
      exists e, _tokenize (pre ++ String "#" c) = Raise e) /\
  sub_comments "var x; # done" = "var x; # done" /\
  _tokenize "var x; # done" = Raise (LexInvalidChar "#") /\
  compile "var x; # done" = ([], Raise (LexInvalidChar "#")).
Proof.
  split; [exact tokenize_open_comment|]. repeat split.
Qed.

(** C10: the program [and = True; z = and; show z;] passes the validator,
    which has no check of the name on the left of an assignment against
    the reserved words (the declaration branch has one); the tree built
    for [z] is an [and] node without children, and printing the first row
    raises the exception for a wrong number of children after the header
    has been printed. *)
Theorem validated_program_raises_in_eval :
  _check_instructions [["and"; "="; "True"]; ["z"; "="; "and"]; ["show"; "z"]]
  = Ok [["and"; "="; "True"]; ["z"; "="; "and"]; ["show"; "z"]] /\
  build_tree_recursively ["and"] = Ok (mkNode "and" []) /\
  compile "and = True; z = and; show z;" = (["#    z"], Raise MalformedNode).
Proof. repeat split. Qed.

(** X1: a program that passes the validator and assigns none of the names
    [and], [or], [not], [=] runs to the end: the builder and the
    evaluator raise nothing, every requested name is bound, and each
    display prints its whole table. *)
Theorem validated_program_runs (f : string) (tokens : list string) :
  _tokenize f = Ok tokens ->
  _check_instructions (_split_instructions tokens)
  = Ok (_split_instructions tokens) ->
  forallb plain_target (_split_instructions tokens) = true ->
  exists out, compile f = (out, Ok tt).
Proof.
  intros Htok Hcheck Hplain. unfold compile. rewrite Htok, Hcheck.
  unfold _check_instructions in Hcheck.
  destruct (check_loop (_split_instructions tokens) [] []) as [r|e] eqn:Hloop;
    [|discriminate].
  destruct (execute_instructions_ok (_split_instructions tokens)
              [] [] (mkCompiler [] []) r) as [out [self' [Hexec _]]];
    try assumption.
  - constructor; try reflexivity; [intros t [] | constructor].
  - apply split_loop_no_semicolon; [constructor | intros []].
  - rewrite Hexec. cbn. exists (out ++ []). reflexivity.
Qed.

Lemma validated_program_runs_witness :
  exists out, compile "var x y; z = not (x or y); show_ones z x;" = (out, Ok tt).
Proof.
  apply (validated_program_runs _
           ["var"; "x"; "y"; ";"; "z"; "="; "not"; "("; "x"; "or"; "y"; ")"; ";";
            "show_ones"; "z"; "x"; ";"]); reflexivity.
Defined.

(** * Further properties *)

(** ** The lexer *)

Section LexerFacts.

Lemma all_chars_app (p : ascii -> bool) (a b : string) :
  all_chars p (a ++ b)%string = all_chars p a && all_chars p b.
Proof.
  induction a as [|c a IH]; cbn [append all_chars]; [reflexivity|].
  now rewrite IH, andb_assoc.
Qed.

Lemma is_word_extend (word : string) (c : ascii) :
  is_word word = true -> is_word_char c = true ->
  is_word (word ++ char_str c)%string = true.
Proof.
  destruct word as [|x word]; [discriminate|].
  cbn [is_word append]. intros H Hc. apply andb_prop in H.
  destruct H as [Hx Hw]. rewrite Hx, all_chars_app, Hw. cbn.
  now rewrite Hc.
Qed.

Lemma special_lexeme (c : ascii) :
  is_special c = true -> lexeme (char_str c) = true.
Proof.
  unfold is_special. intros H.
  repeat (apply orb_prop in H; destruct H as [H|H]);
    apply Ascii.eqb_eq in H; subst; reflexivity.
Qed.

Lemma truthy_empty (word : string) : truthy word = false -> word = "".
Proof. now destruct word. Qed.

(** The loop keeps the tokens and the word in progress well formed. *)
Lemma tokenize_loop_lexemes (s : string) :
  forall (tokens : list string) (word : string) (tokens' : list string),
    forallb lexeme tokens = true ->
    (truthy word = true -> is_word word = true) ->
    tokenize_loop s tokens word = Ok tokens' ->
    forallb lexeme tokens' = true.
Proof.
  induction s as [|c s IH]; intros tokens word tokens' Htok Hword;
    cbn [tokenize_loop].
  - now intros [= <-].
  - destruct (truthy word) eqn:Hw; cbn [negb]; rewrite ?andb_false_r, ?andb_true_r.
    + (* a word is in progress *)
      specialize (Hword eq_refl).
      assert (Hlex : forallb lexeme (tokens ++ [word]) = true).
      { rewrite forallb_app, Htok. cbn. unfold lexeme.
        now rewrite Hword, orb_true_r. }
      destruct (is_word_char c) eqn:Hc.
      { apply IH; [assumption|]. intros _. now apply is_word_extend. }
      destruct (is_blank c).
      { apply IH; [assumption | discriminate]. }
      destruct (is_special c) eqn:Hs; [|discriminate].
      apply IH; [|discriminate].
      rewrite forallb_app, Hlex. cbn. now rewrite special_lexeme.
    + (* no word in progress *)
      apply truthy_empty in Hw. subst word.
      destruct (is_word_start c) eqn:Hc.
      { apply IH; [assumption|]. intros _. cbn. now rewrite Hc. }
      destruct (is_digit c); [discriminate|].
      destruct (is_blank c).
      { apply IH; [assumption | discriminate]. }
      destruct (is_special c) eqn:Hs; [|discriminate].
      apply IH; [|discriminate].
      rewrite forallb_app, Htok. cbn. now rewrite special_lexeme.
Qed.

End LexerFacts.

(** X2: every token that the lexer returns is a word (a letter or an
    underscore followed by letters, digits and underscores) or one of the
    characters [(], [)], [=], [;]. *)
Theorem tokenize_lexemes (s : string) (tokens : list string) :
  _tokenize s = Ok tokens -> forallb lexeme tokens = true.
Proof.
  unfold _tokenize. apply tokenize_loop_lexemes; [reflexivity | discriminate].
Qed.

Lemma tokenize_lexemes_witness :
  forallb lexeme ["var"; "x_1"; ";"; "y"; "="; "("; "x_1"; ")"; ";"] = true.
Proof.
  apply (tokenize_lexemes "var x_1 ;y=(x_1);"). reflexivity.
Defined.

Section LexerEdges.

Lemma sub_comments_plain (s : string) :
  occurs "#" s = false -> sub_comments s = s.
Proof.
  induction s as [|c s IH]; cbn [occurs sub_comments]; [reflexivity|].
  intros H. apply orb_false_elim in H. destruct H as [Hc Hs].
  now rewrite Hc, IH.
Qed.

Lemma letters_plain (w : string) :
  all_chars is_word_start w = true ->
  occurs "#" w = false /\ occurs newline w = false.
Proof.
  induction w as [|c w IH]; cbn [all_chars occurs]; [now split|].
  intros H. apply andb_prop in H. destruct H as [Hc Hw].
  destruct (IH Hw) as [-> ->]. rewrite !orb_false_r. split.
  - destruct (Ascii.eqb_spec c "#") as [->|]; [discriminate | reflexivity].
  - destruct (Ascii.eqb_spec c newline) as [->|]; [discriminate | reflexivity].
Qed.

Lemma sub_comments_append (s w : string) :
  occurs "#" w = false -> occurs newline w = false ->
  sub_comments (s ++ w) = (sub_comments s ++ w)%string /\
  comment_tail (s ++ w)
  = option_map (fun out => (out ++ w)%string) (comment_tail s).
Proof.
  intros Hh Hn. induction s as [|c s [IHs IHt]].
  - cbn [append sub_comments comment_tail option_map].
    now rewrite sub_comments_plain, comment_tail_open.
  - cbn [append sub_comments comment_tail]. rewrite IHs, IHt. split.
    + destruct (Ascii.eqb c "#"); [|reflexivity].
      now destruct (comment_tail s).
    + now destruct (Ascii.eqb c newline).
Qed.

Lemma tokenize_loop_letters (w : string) (tokens : list string) (word : string) :
  all_chars is_word_start w = true -> tokenize_loop w tokens word = Ok tokens.
Proof.
  revert word. induction w as [|c w IH]; intros word; cbn [all_chars tokenize_loop];
    [reflexivity|].
  intros H. apply andb_prop in H. destruct H as [Hc Hw].
  unfold is_word_char. rewrite Hc. cbn [orb andb].
  destruct (truthy word); cbn [negb]; rewrite ?andb_false_r; now apply IH.
Qed.

Lemma tokenize_loop_append (t w : string) (tokens : list string) (word : string) :
  all_chars is_word_start w = true ->
  tokenize_loop (t ++ w) tokens word = tokenize_loop t tokens word.
Proof.
  intros Hw. revert tokens word.
  induction t as [|c t IH]; intros tokens word; cbn [append tokenize_loop].
  - now apply tokenize_loop_letters.
  - now rewrite !IH.
Qed.

Lemma blank_classes (c : ascii) :
  is_blank c = true ->
  is_word_start c = false /\ is_digit c = false /\ is_word_char c = false.
Proof.
  unfold is_blank. intros H.
  repeat (apply orb_prop in H; destruct H as [H|H]);
    apply Ascii.eqb_eq in H; subst; repeat split.
Qed.

Lemma special_classes (c : ascii) :
  is_special c = true ->
  is_word_start c = false /\ is_digit c = false /\ is_word_char c = false /\
  is_blank c = false.
Proof.
  unfold is_special. intros H.
  repeat (apply orb_prop in H; destruct H as [H|H]);
    apply Ascii.eqb_eq in H; subst; repeat split.
Qed.

Lemma tokenize_loop_plain (s : string) (tokens : list string) (word : string) :
  all_chars plain_char s = true ->
  exists tokens', tokenize_loop s tokens word = Ok tokens'.
Proof.
  revert tokens word. induction s as [|c s IH]; intros tokens word;
    cbn [all_chars tokenize_loop]; [now exists tokens|].
  intros H. apply andb_prop in H. destruct H as [Hc Hs].
  unfold plain_char in Hc.
  destruct (is_word_start c) eqn:Hstart.
  { unfold is_word_char. rewrite Hstart. cbn [orb andb].
    destruct (truthy word); cbn [negb]; rewrite ?andb_false_r; now apply IH. }
  destruct (is_blank c) eqn:Hblank.
  { destruct (blank_classes c Hblank) as [_ [-> ->]]. cbn [andb].
    destruct (truthy word); now apply IH. }
  cbn [orb] in Hc.
  destruct (special_classes c Hc) as [_ [-> [-> _]]]. cbn [andb].
  rewrite Hc. now apply IH.
Qed.

Lemma tokenize_loop_foreign (s : string) (tokens : list string) (word : string) :
  some_char foreign_char s = true ->
  exists e, tokenize_loop s tokens word = Raise e.
Proof.
  revert tokens word. induction s as [|c s IH]; intros tokens word;
    cbn [some_char tokenize_loop]; [discriminate|].
  destruct (foreign_char c) eqn:Hc; cbn [orb].
  - intros _. unfold foreign_char in Hc. apply negb_true_iff in Hc.
    apply orb_false_elim in Hc. destruct Hc as [Hc Hspecial].
    apply orb_false_elim in Hc. destruct Hc as [Hchar Hblank].
    unfold is_word_char in *. apply orb_false_elim in Hchar.
    destruct Hchar as [Hstart Hdigit].
    rewrite Hstart, Hdigit, Hblank, Hspecial. cbn. eexists. reflexivity.
  - intros Hs.
    destruct (is_word_start c && negb (truthy word)); [now apply IH|].
    destruct (is_digit c && negb (truthy word)); [eexists; reflexivity|].
    destruct (is_word_char c && truthy word); [now apply IH|].
    destruct (is_blank c); [destruct (truthy word); now apply IH|].
    destruct (is_special c); [now apply IH|].
    eexists; reflexivity.
Qed.

End LexerEdges.

(** X3: a last word that no blank and no special character follows is
    not emitted: letters and underscores added at the end of a text do
    not change what the lexer returns. *)
Theorem tokenize_drops_last_word (s w : string) :
  all_chars is_word_start w = true -> _tokenize (s ++ w) = _tokenize s.
Proof.
  intros Hw. unfold _tokenize.
  destruct (letters_plain w Hw) as [Hh Hn].
  destruct (sub_comments_append s w Hh Hn) as [-> _].
  now apply tokenize_loop_append.
Qed.

Lemma tokenize_drops_last_word_witness :
  _tokenize ("var x; show " ++ "x_y") = Ok ["var"; "x"; ";"; "show"].
Proof.
  rewrite (tokenize_drops_last_word "var x; show " "x_y"); reflexivity.
Defined.

(** X4: on a text without [#], the lexer returns tokens when every
    character is a letter, an underscore, a blank or one of [()=;], and
    raises when some character is neither a letter, a digit, an
    underscore, a blank nor one of [()=;]. *)
Theorem tokenize_characters (s : string) :
  occurs "#" s = false ->
  (all_chars plain_char s = true -> exists tokens, _tokenize s = Ok tokens) /\
  (some_char foreign_char s = true -> exists e, _tokenize s = Raise e).
Proof.
  intros Hh. unfold _tokenize. rewrite (sub_comments_plain s Hh). split.
  - apply tokenize_loop_plain.
  - apply tokenize_loop_foreign.
Qed.

Lemma tokenize_characters_witness :
  (exists tokens, _tokenize "z = (x or y);" = Ok tokens) /\
  (exists e, _tokenize "z = x + y;" = Raise e).
Proof.
  split.
  - apply (proj1 (tokenize_characters "z = (x or y);" eq_refl)). reflexivity.
  - apply (proj2 (tokenize_characters "z = x + y;" eq_refl)). reflexivity.
Defined.

(** ** The splitter, the validator and the executor as loops *)

Section LoopFacts.

Lemma split_loop_terminated (tokens : list string) :
  forall (instructions : list (list string)) (buffer : list string),
    ~ In ";" buffer ->
    exists tail,
      ~ In ";" tail /\
      terminated instructions ++ buffer ++ tokens
      = terminated (split_loop tokens instructions buffer) ++ tail.
Proof.
  induction tokens as [|t tokens IH]; intros instructions buffer Hb;
    cbn [split_loop].
  - exists buffer. now rewrite app_nil_r.
  - destruct (String.eqb_spec t ";") as [->|Hne].
    + destruct (IH (instructions ++ [buffer]) []) as [tail [Htail Heq]];
        [intros []|].
      exists tail. split; [assumption|]. rewrite <- Heq.
      unfold terminated. rewrite flat_map_app. cbn [flat_map app].
      now rewrite app_nil_r, <- !app_assoc.
    + destruct (IH instructions (buffer ++ [t])) as [tail [Htail Heq]].
      { intros H. apply in_app_or in H. destruct H as [H|[H|[]]]; congruence. }
      exists tail. split; [assumption|]. rewrite <- Heq.
      now rewrite <- !app_assoc.
Qed.

Lemma split_loop_count (tokens : list string) :
  forall (instructions : list (list string)) (buffer : list string),
    List.length (split_loop tokens instructions buffer)
    = List.length instructions + count_occ string_dec tokens ";".
Proof.
  induction tokens as [|t tokens IH]; intros instructions buffer;
    cbn [split_loop count_occ]; [lia|].
  destruct (String.eqb_spec t ";") as [->|Hne].
  - rewrite IH, length_app. cbn [List.length].
    destruct (string_dec ";" ";"); [lia | congruence].
  - rewrite IH. destruct (string_dec t ";"); [congruence | lia].
Qed.

Lemma check_loop_app (pre rest : list (list string)) :
  forall dv di,
    check_loop (pre ++ rest) dv di
    = match check_loop pre dv di with
      | Ok (dv', di') => check_loop rest dv' di'
      | Raise e => Raise e
      end.
Proof.
  induction pre as [|instr pre IH]; intros dv di; [reflexivity|].
  cbn [app check_loop].
  destruct instr as [|i0 [|i1 args]]; try reflexivity.
  destruct (String.eqb i0 "var").
  { destruct (check_declaration (i1 :: args) dv di); cbn [bind];
      [apply IH | reflexivity]. }
  destruct ((3 <=? List.length (i0 :: i1 :: args)) && String.eqb i1 "=").
  { destruct (mem i0 dv || mem i0 di); [reflexivity|].
    destruct (check_valid_recursively dv di args); cbn [bind];
      [apply IH | reflexivity]. }
  destruct (String.eqb i0 "show" || String.eqb i0 "show_ones");
    [|reflexivity].
  destruct (check_display (i1 :: args) dv di); cbn [bind];
    [apply IH | reflexivity].
Qed.

Lemma io_bind_assoc {A B C : Type} (m : io A) (k : A -> io B) (h : B -> io C) :
  io_bind (io_bind m k) h = io_bind m (fun a => io_bind (k a) h).
Proof.
  destruct m as [out [a|e]]; cbn; [|reflexivity].
  destruct (k a) as [out' [b|e]]; cbn; [|reflexivity].
  destruct (h b) as [out'' r]. now rewrite app_assoc.
Qed.

End LoopFacts.

(** X5: the instructions that the splitter returns hold no [;], there is
    one of them for each [;] of the tokens, and putting the [;] back after
    each of them gives back the tokens up to the last [;]: what is left
    over holds no [;]. *)
Theorem split_round_trip (tokens : list string) :
  Forall (fun instr => ~ In ";" instr) (_split_instructions tokens) /\
  List.length (_split_instructions tokens) = count_occ string_dec tokens ";" /\
  exists tail,
    ~ In ";" tail /\
    tokens = terminated (_split_instructions tokens) ++ tail.
Proof.
  unfold _split_instructions. split; [|split].
  - apply split_loop_no_semicolon; [constructor | intros []].
  - now rewrite split_loop_count.
  - destruct (split_loop_terminated tokens [] []) as [tail [Htail Heq]];
      [intros []|].
    exists tail. split; [assumption | exact Heq].
Qed.

(** X6: the validator goes through the instructions in order, each one
    against the names declared by those before it, and stops at the first
    one it refuses: the instructions after it play no part. *)
Theorem check_instructions_in_order (pre rest : list (list string)) :
  (forall e, _check_instructions pre = Raise e ->
             _check_instructions (pre ++ rest) = Raise e) /\
  (forall dv di,
      check_loop pre [] [] = Ok (dv, di) ->
      check_loop (pre ++ rest) [] [] = check_loop rest dv di).
Proof.
  unfold _check_instructions. split.
  - intros e. rewrite check_loop_app.
    destruct (check_loop pre [] []) as [[dv di]|e']; cbn [bind];
      [discriminate | trivial].
  - intros dv di H. now rewrite check_loop_app, H.
Qed.

(** X7: running a list of instructions is running a first part and then
    the rest from the state that the first part leaves, the lines of the
    rest being printed after those of the first part; when the first part
    raises, the rest is not run and the lines already printed stay. *)
Theorem execute_instructions_app
    (first rest : list (list string)) (self : Compiler) :
  _execute_instructions (first ++ rest) self
  = io_bind (_execute_instructions first self) (_execute_instructions rest).
Proof.
  revert self. induction first as [|i first IH]; intros self.
  - cbn. now destruct (_execute_instructions rest self).
  - cbn [app _execute_instructions]. rewrite io_bind_assoc.
    destruct (execute_instruction self i) as [out [self'|e]]; cbn;
      [now rewrite IH | reflexivity].
Qed.

(** ** The names declared and the state of the executor *)

Section StateFacts.

Lemma declare_extends (names vars : list string) :
  exists added, declare names vars = vars ++ added.
Proof.
  revert vars. induction names as [|t names IH]; intros vars; cbn [declare].
  - exists []. now rewrite app_nil_r.
  - destruct (String.eqb t ";").
    + exists []. now rewrite app_nil_r.
    + destruct (IH (vars ++ [t])) as [added ->].
      exists (t :: added). now rewrite <- app_assoc.
Qed.

(** One instruction adds names after those already there and, when it
    is no display, prints nothing. *)
Lemma execute_instruction_adds (self self' : Compiler)
      (i : list string) (out : list string) :
  execute_instruction self i = (out, Ok self') ->
  (exists new_vars new_ids,
      vars self' = vars self ++ new_vars /\
      ids self' = ids self ++ new_ids) /\
  (silent i = true -> out = []).
Proof.
  destruct i as [|i0 tail]; [discriminate|]. cbn [execute_instruction silent].
  destruct (String.eqb i0 "var") eqn:Hvar.
  { intros [= <- <-]. cbn [vars ids]. split; [|reflexivity].
    destruct (declare_extends tail (vars self)) as [added ->].
    exists added, []. now rewrite app_nil_r. }
  destruct tail as [|i1 args]; [discriminate|].
  destruct (String.eqb i1 "=").
  { destruct (mem i0 (vars self)); cbn [negb andb]; [discriminate|].
    destruct (mem i0 (keys (ids self))) eqn:Hkey; cbn [negb]; [discriminate|].
    destruct (build_tree_recursively args) as [tree|e]; [|discriminate].
    intros [= <- <-]. cbn [vars ids]. split; [|reflexivity].
    exists [], [(i0, tree)]. rewrite app_nil_r. split; [reflexivity|].
    apply dict_set_fresh. now apply mem_not_In. }
  destruct (String.eqb i0 "show" || String.eqb i0 "show_ones");
    [|discriminate].
  destruct (_show self (i1 :: args) (String.eqb i0 "show_ones"))
    as [out' [[]|e]]; cbn; [|discriminate].
  intros [= <- <-]. split; [|discriminate].
  exists [], []. now rewrite !app_nil_r.
Qed.

Lemma declared_ok_variable (dv di : list string) (t : string) :
  declared_ok dv di -> ~ In t dv -> ~ In t di -> ~ In t reserved ->
  List.length (dv ++ [t]) <= 64 -> declared_ok (dv ++ [t]) di.
Proof.
  intros [Hnd [Hlen Hres]] Hv Hi Hr Hlen'. split; [|split].
  - rewrite <- app_assoc. cbn [app].
    apply (NoDup_Add (Add_app t dv di)). split; [assumption|].
    rewrite in_app_iff. tauto.
  - assumption.
  - intros x Hx. apply in_app_or in Hx. destruct Hx as [Hx|[<-|[]]];
      [now apply Hres | assumption].
Qed.

Lemma declared_ok_identifier (dv di : list string) (t : string) :
  declared_ok dv di -> ~ In t dv -> ~ In t di -> declared_ok dv (di ++ [t]).
Proof.
  intros [Hnd [Hlen Hres]] Hv Hi. split; [|split]; try assumption.
  rewrite app_assoc.
  pose proof (Add_app t (dv ++ di) []) as Hadd. rewrite app_nil_r in Hadd.
  apply (NoDup_Add Hadd). split; [assumption|].
  rewrite in_app_iff. tauto.
Qed.

Lemma check_declaration_keeps (names dv di dv' : list string) :
  declared_ok dv di -> check_declaration names dv di = Ok dv' ->
  declared_ok dv' di.
Proof.
  revert dv. induction names as [|t names IH]; intros dv Hok;
    cbn [check_declaration].
  - now intros [= <-].
  - destruct (mem t dv) eqn:Hv; [discriminate|]. cbn [orb].
    destruct (mem t di) eqn:Hi; [discriminate|].
    destruct (mem t reserved) eqn:Hr; [discriminate|].
    destruct (64 <? List.length (dv ++ [t])) eqn:Hlen; [discriminate|].
    apply IH. apply declared_ok_variable; try assumption;
      try (now apply mem_not_In).
    now apply Nat.ltb_ge.
Qed.

Lemma check_loop_keeps (instructions : list (list string)) :
  forall dv di dv' di',
    declared_ok dv di -> check_loop instructions dv di = Ok (dv', di') ->
    declared_ok dv' di'.
Proof.
  induction instructions as [|instr instructions IH];
    intros dv di dv' di' Hok; cbn [check_loop].
  - now intros [= <- <-].
  - destruct instr as [|i0 [|i1 args]]; try discriminate.
    destruct (String.eqb i0 "var").
    { destruct (check_declaration (i1 :: args) dv di) as [dv1|e] eqn:Hdecl;
        cbn [bind]; [|discriminate].
      apply IH. now apply (check_declaration_keeps (i1 :: args) dv). }
    destruct ((3 <=? List.length (i0 :: i1 :: args)) && String.eqb i1 "=").
    { destruct (mem i0 dv) eqn:Hv; [discriminate|]. cbn [orb].
      destruct (mem i0 di) eqn:Hi; [discriminate|].
      destruct (check_valid_recursively dv di args); cbn [bind];
        [|discriminate].
      apply IH. apply declared_ok_identifier; try assumption;
        now apply mem_not_In. }
    destruct (String.eqb i0 "show" || String.eqb i0 "show_ones");
      [|discriminate].
    destruct (check_display (i1 :: args) dv di); cbn [bind];
      [now apply IH | discriminate].
Qed.

End StateFacts.

(** X8: a run that ends without exception leaves the variables and the
    identifiers it started with as they were, trees included, and has
    only added names after them; and a run without display instruction
    prints nothing. *)
Theorem execute_only_adds
    (instructions : list (list string)) (self self' : Compiler)
    (out : list string) :
  _execute_instructions instructions self = (out, Ok self') ->
  (exists new_vars new_ids,
      vars self' = vars self ++ new_vars /\
      ids self' = ids self ++ new_ids) /\
  (forallb silent instructions = true -> out = []).
Proof.
  revert self out. induction instructions as [|i instructions IH];
    intros self out; cbn [_execute_instructions forallb].
  - intros [= <- <-]. split; [|reflexivity].
    exists [], []. now rewrite !app_nil_r.
  - destruct (execute_instruction self i) as [out1 [self1|e]] eqn:Hstep;
      cbn [io_bind]; [|discriminate].
    destruct (_execute_instructions instructions self1) as [out2 r] eqn:Hrest.
    intros [= <- ->].
    destruct (execute_instruction_adds _ _ _ _ Hstep) as [[v1 [d1 [Hv1 Hd1]]] Hs1].
    destruct (IH _ _ Hrest) as [[v2 [d2 [Hv2 Hd2]]] Hs2].
    split.
    + exists (v1 ++ v2), (d1 ++ d2).
      now rewrite Hv2, Hd2, Hv1, Hd1, <- !app_assoc.
    + intros H. apply andb_prop in H. destruct H as [Hi Hrest'].
      now rewrite (Hs1 Hi), (Hs2 Hrest').
Qed.

Lemma execute_only_adds_witness :
  exists new_vars new_ids,
    ["x"; "y"] = ["x"] ++ new_vars /\
    [("z", mkNode "x" [])] = [] ++ new_ids.
Proof.
  destruct (execute_only_adds [["var"; "y"]; ["z"; "="; "x"]]
              (mkCompiler ["x"] []) (mkCompiler ["x"; "y"] [("z", mkNode "x" [])])
              [] eq_refl) as [H _].
  exact H.
Defined.

(** X9: when validation succeeds, no name is declared twice, as a
    variable, as an identifier or as both, there are at most 64
    variables, and no variable has a reserved name. *)
Theorem check_loop_declared
    (instructions : list (list string)) (dv di : list string) :
  check_loop instructions [] [] = Ok (dv, di) ->
  NoDup (dv ++ di) /\ List.length dv <= 64 /\
  forall t, In t dv -> ~ In t reserved.
Proof.
  apply check_loop_keeps. split; [constructor | split; [cbn; lia | intros t []]].
Qed.

Lemma check_loop_declared_witness :
  NoDup (["x"; "y"] ++ ["z"]) /\ List.length ["x"; "y"] <= 64 /\
  forall t, In t ["x"; "y"] -> ~ In t reserved.
Proof.
  apply (check_loop_declared
           [["var"; "x"; "y"]; ["z"; "="; "x"; "or"; "y"]; ["show"; "z"]]).
  reflexivity.
Defined.

(** X10: after the instructions of a validated program that assigns none
    of the names [and], [or], [not], [=], the executor has raised
    nothing, its variables are the validator's declared variables, in
    order, its identifiers the validator's declared identifiers, in
    order, and the tree of each identifier is well formed over the
    variables and the identifiers before it. *)
Theorem validated_state
    (instructions : list (list string)) (dv di : list string) :
  Forall (fun instr => ~ In ";" instr) instructions ->
  forallb plain_target instructions = true ->
  check_loop instructions [] [] = Ok (dv, di) ->
  exists out self,
    _execute_instructions instructions (mkCompiler [] []) = (out, Ok self) /\
    vars self = dv /\ keys (ids self) = di /\
    scoped (vars self) (ids self) = true.
Proof.
  intros Hsemi Hplain Hcheck.
  destruct (execute_instructions_ok instructions [] [] (mkCompiler [] [])
              (dv, di)) as [out [self [Hexec Ha]]]; try assumption.
  { constructor; try reflexivity; [intros t [] | constructor]. }
  exists out, self. split; [assumption|].
  destruct Ha as [Hv Hi Hs _ _]. now repeat split.
Qed.

Lemma no_semicolon_check (instructions : list (list string)) :
  forallb (fun instr => negb (mem ";" instr)) instructions = true ->
  Forall (fun instr => ~ In ";" instr) instructions.
Proof.
  intros H. apply Forall_forall. intros instr Hin.
  rewrite forallb_forall in H. specialize (H instr Hin).
  apply mem_not_In. now destruct (mem ";" instr).
Qed.

Lemma validated_state_witness :
  exists out self,
    _execute_instructions
      [["var"; "x"; "y"]; ["z"; "="; "x"; "and"; "y"]; ["show"; "z"]]
      (mkCompiler [] []) = (out, Ok self) /\
    vars self = ["x"; "y"] /\ keys (ids self) = ["z"] /\
    scoped (vars self) (ids self) = true.
Proof.
  apply validated_state.
  - apply no_semicolon_check. reflexivity.
  - reflexivity.
  - reflexivity.
Defined.

(** ** The evaluator *)

Section EvaluatorFacts.

Variable variables : dict bool.

Lemma eval_children (cs : list Node) :
  Forall (evaluates variables) cs ->
  map (fun c => eval c variables) cs
  = map (fun c => Ok (value_of variables c)) cs.
Proof.
  induction 1 as [|c cs [b Hb] _ IH]; [reflexivity|].
  cbn [map]. rewrite IH. unfold value_of. now rewrite Hb.
Qed.

Lemma all_children_values (cs : list Node) :
  all_children (map (fun c => Ok (value_of variables c)) cs)
  = Ok (forallb (value_of variables) cs).
Proof.
  induction cs as [|c cs IH]; [reflexivity|]. cbn [map all_children forallb].
  now destruct (value_of variables c).
Qed.

Lemma any_child_values (cs : list Node) :
  any_child (map (fun c => Ok (value_of variables c)) cs)
  = Ok (existsb (value_of variables) cs).
Proof.
  induction cs as [|c cs IH]; [reflexivity|]. cbn [map any_child existsb].
  now destruct (value_of variables c).
Qed.

Lemma forallb_permutation (g : Node -> bool) (l l' : list Node) :
  Permutation l l' -> forallb g l = forallb g l'.
Proof.
  induction 1 as [| x l l' _ IH | x y l | l l' l'' _ IH1 _ IH2]; cbn.
  - reflexivity.
  - now rewrite IH.
  - now destruct (g x), (g y).
  - now rewrite IH1.
Qed.

Lemma existsb_permutation (g : Node -> bool) (l l' : list Node) :
  Permutation l l' -> existsb g l = existsb g l'.
Proof.
  induction 1 as [| x l l' _ IH | x y l | l l' l'' _ IH1 _ IH2]; cbn.
  - reflexivity.
  - now rewrite IH.
  - now destruct (g x), (g y).
  - now rewrite IH1.
Qed.

Lemma insert_by_depth_permutation (x : Node) (l : list Node) :
  Permutation (x :: l) (insert_by_depth x l).
Proof.
  induction l as [|y l IH]; cbn [insert_by_depth]; [reflexivity|].
  destruct (depth x <=? depth y); [reflexivity|].
  rewrite perm_swap. now apply perm_skip.
Qed.

Lemma sorted_by_depth_permutation (l : list Node) :
  Permutation l (sorted_by_depth l).
Proof.
  unfold sorted_by_depth. induction l as [|x l IH]; cbn [fold_right];
    [reflexivity|].
  rewrite <- insert_by_depth_permutation. now apply perm_skip.
Qed.

Lemma eval_and_values (cs : list Node) :
  Forall (evaluates variables) cs -> 2 <= List.length cs ->
  eval (mkNode "and" cs) variables = Ok (forallb (value_of variables) cs).
Proof.
  intros Hcs Hlen. rewrite eval_and.
  replace (List.length cs <? 2) with false
    by (symmetry; now apply Nat.ltb_ge).
  now rewrite eval_children, all_children_values.
Qed.

Lemma eval_or_values (cs : list Node) :
  Forall (evaluates variables) cs -> 2 <= List.length cs ->
  eval (mkNode "or" cs) variables = Ok (existsb (value_of variables) cs).
Proof.
  intros Hcs Hlen. rewrite eval_or.
  replace (List.length cs <? 2) with false
    by (symmetry; now apply Nat.ltb_ge).
  now rewrite eval_children, any_child_values.
Qed.

Lemma eval_permutation (v : string) (cs cs' : list Node) :
  v = "and" \/ v = "or" -> Permutation cs cs' -> Forall (evaluates variables) cs ->
  eval (mkNode v cs') variables = eval (mkNode v cs) variables.
Proof.
  intros Hv Hperm Hcs.
  assert (Hcs' : Forall (evaluates variables) cs').
  { rewrite Forall_forall in *. intros c Hc. apply Hcs.
    now apply (Permutation_in c (Permutation_sym Hperm)). }
  pose proof (Permutation_length Hperm) as Hlen.
  destruct Hv as [-> | ->].
  - rewrite !eval_and, <- Hlen.
    destruct (List.length cs <? 2); [reflexivity|].
    rewrite !eval_children, !all_children_values by assumption.
    now rewrite (forallb_permutation _ _ _ Hperm).
  - rewrite !eval_or, <- Hlen.
    destruct (List.length cs <? 2); [reflexivity|].
    rewrite !eval_children, !any_child_values by assumption.
    now rewrite (existsb_permutation _ _ _ Hperm).
Qed.

End EvaluatorFacts.

(** X11: when every child of a node evaluates without exception, an
    [and] node of two children or more is true exactly when all its
    children are, an [or] node of two children or more exactly when one
    of them is, and a [not] node has the opposite value of its first
    child. *)
Theorem eval_connectives (variables : dict bool) (cs : list Node) :
  Forall (fun c => exists b, eval c variables = Ok b) cs ->
  (2 <= List.length cs ->
   eval (mkNode "and" cs) variables = Ok (forallb (value_of variables) cs) /\
   eval (mkNode "or" cs) variables = Ok (existsb (value_of variables) cs)) /\
  (forall c cs', cs = c :: cs' ->
   eval (mkNode "not" cs) variables = Ok (negb (value_of variables c))).
Proof.
  intros Hcs. split.
  - intros Hlen. split;
      [now apply eval_and_values | now apply eval_or_values].
  - intros c cs' ->. inversion Hcs as [|? ? [b Hb] _]; subst.
    cbn. unfold value_of. now rewrite Hb.
Qed.

Lemma eval_connectives_witness :
  eval (mkNode "and" [mkNode "x" []; mkNode "True" []]) [("x", false)]
  = Ok (forallb (value_of [("x", false)]) [mkNode "x" []; mkNode "True" []]).
Proof.
  refine (proj1 (proj1 (eval_connectives [("x", false)]
                          [mkNode "x" []; mkNode "True" []] _) _)).
  - repeat constructor; eexists; reflexivity.
  - cbn. lia.
Defined.

(** X12: the order of the children of an [and] or [or] node does not
    change its value when every child evaluates without exception; in
    particular sorting the children by depth, as the builder does, does
    not. *)
Theorem eval_order_irrelevant
    (variables : dict bool) (v : string) (cs cs' : list Node) :
  v = "and" \/ v = "or" ->
  Forall (fun c => exists b, eval c variables = Ok b) cs ->
  (Permutation cs cs' ->
   eval (mkNode v cs') variables = eval (mkNode v cs) variables) /\
  eval (mkNode v (sorted_by_depth cs)) variables
  = eval (mkNode v cs) variables.
Proof.
  intros Hv Hcs. split.
  - intros Hperm. now apply eval_permutation.
  - apply eval_permutation; try assumption.
    apply sorted_by_depth_permutation.
Qed.

Lemma eval_order_irrelevant_witness :
  eval (mkNode "or" (sorted_by_depth
                       [mkNode "not" [mkNode "x" []]; mkNode "y" []]))
       [("x", true); ("y", false)]
  = eval (mkNode "or" [mkNode "not" [mkNode "x" []]; mkNode "y" []])
         [("x", true); ("y", false)].
Proof.
  refine (proj2 (eval_order_irrelevant [("x", true); ("y", false)] "or"
                   [mkNode "not" [mkNode "x" []]; mkNode "y" []] [] _ _)).
  - now right.
  - repeat constructor; eexists; reflexivity.
Defined.

(** ** The builder *)

Section CanonicalFacts.

Lemma insert_by_depth_ascending (x : Node) (l : list Node) :
  ascending (map depth l) = true ->
  ascending (map depth (insert_by_depth x l)) = true.
Proof.
  induction l as [|y l IH]; [reflexivity|].
  cbn [insert_by_depth]. intros Hl.
  destruct (depth x <=? depth y) eqn:Hxy.
  - cbn [map ascending] in *. now rewrite Hxy, Hl.
  - apply Nat.leb_gt in Hxy.
    assert (Hl' : ascending (map depth l) = true).
    { destruct l as [|z l]; [reflexivity|]. cbn [map ascending] in Hl.
      apply andb_prop in Hl. tauto. }
    specialize (IH Hl').
    destruct l as [|z l].
    + cbn. rewrite andb_true_r. apply Nat.leb_le. lia.
    + cbn [insert_by_depth] in *. destruct (depth x <=? depth z).
      * cbn [map ascending] in *. rewrite IH, andb_true_r.
        apply Nat.leb_le. lia.
      * cbn [map ascending] in *. rewrite IH, andb_true_r.
        apply andb_prop in Hl. tauto.
Qed.

Lemma sorted_by_depth_ascending (l : list Node) :
  ascending (map depth (sorted_by_depth l)) = true.
Proof.
  unfold sorted_by_depth. induction l as [|x l IH]; [reflexivity|].
  cbn [fold_right]. now apply insert_by_depth_ascending.
Qed.

Lemma build_tree_canonical_from (n : nat) :
  forall (expr : list string) (children : list Node)
         (node_type : option string) (t : Node),
    List.length expr <= n ->
    forallb canonical children = true ->
    build_tree expr children node_type = Ok t -> canonical t = true.
Proof.
  assert (Hend : forall children node_type t,
            forallb canonical children = true ->
            build_tree [] children node_type = Ok t -> canonical t = true).
  { intros children node_type t Hc. rewrite build_tree_equation_1. cbv zeta.
    pose proof (sorted_by_depth_forallb canonical children Hc) as Hs.
    destruct node_type as [v|].
    - intros [= <-]. cbn [canonical].
      now rewrite sorted_by_depth_ascending, Hs.
    - destruct (sorted_by_depth children) as [|node l]; [discriminate|].
      intros [= <-]. cbn in Hs. apply andb_prop in Hs. tauto. }
  induction n as [|n IH]; intros expr children node_type t Hlen Hc.
  - destruct expr; [|cbn in Hlen; lia]. now apply Hend.
  - destruct expr as [|token rest]; [now apply Hend|].
    cbn [List.length] in Hlen. rewrite build_tree_equation_2.
    destruct (String.eqb token "(").
    { destruct (find_close rest 1 0) as [k|]; [|apply IH; [lia | assumption]].
      destruct (firstn k rest) as [|a inner] eqn:Hinner; [discriminate|].
      destruct (build_tree (a :: inner) [] None) as [node|e] eqn:Hnode;
        [|discriminate].
      apply IH; [rewrite length_skipn; lia|].
      rewrite forallb_app, Hc. cbn [forallb]. rewrite andb_true_r.
      apply (IH (a :: inner) [] None); [|reflexivity|assumption].
      rewrite <- Hinner, length_firstn. lia. }
    destruct (String.eqb token ")"); [discriminate|].
    destruct (mem token ["not"; "and"; "or"]).
    { destruct (conflicts node_type token); [discriminate|].
      apply IH; [lia | assumption]. }
    apply IH; [lia|]. rewrite forallb_app, Hc. reflexivity.
Qed.

Lemma balanced_app (a b : list string) :
  forall d d',
    balanced_from d a = true ->
    balanced_from (d + d') (a ++ b) = balanced_from d' b.
Proof.
  induction a as [|t a IH]; intros d d'; cbn [balanced_from app].
  - intros H. apply Nat.eqb_eq in H. now subst.
  - destruct (String.eqb t "("); [apply (IH (S d))|].
    destruct (String.eqb t ")"); [|apply IH].
    destruct d as [|d]; [discriminate|]. apply IH.
Qed.

Lemma balanced_passes_from (e : list string) :
  forall d rest n k,
    balanced_from d e = true -> n <> 0 ->
    find_close (e ++ rest) (n + d) k
    = find_close rest n (k + List.length e).
Proof.
  induction e as [|t e IH]; intros d rest n k; cbn [balanced_from app].
  - intros H _. apply Nat.eqb_eq in H. subst.
    cbn [List.length]. now rewrite !Nat.add_0_r.
  - intros H Hn. cbn [find_close List.length].
    destruct (String.eqb t "(").
    { cbn [Nat.eqb]. rewrite <- Nat.add_succ_r, IH by assumption.
      f_equal. lia. }
    destruct (String.eqb t ")").
    { destruct d as [|d]; [discriminate|].
      rewrite Nat.add_succ_r. cbn [Nat.pred].
      destruct (n + d) as [|m] eqn:Hm; [lia|]. cbn [Nat.eqb].
      rewrite <- Hm, IH by assumption. f_equal. lia. }
    destruct (n + d) as [|m] eqn:Hm; [lia|]. cbn [Nat.eqb].
    rewrite <- Hm, IH by assumption. f_equal. lia.
Qed.

Lemma balanced_passes (e : list string) :
  balanced_from 0 e = true -> passes e.
Proof.
  intros H rest n k Hn.
  rewrite <- (Nat.add_0_r n) at 1. now apply balanced_passes_from.
Qed.

End CanonicalFacts.

(** X13: in every tree that the builder returns, each node has its
    children in ascending order of depth. *)
Theorem build_tree_canonical (expr : list string) (t : Node) :
  build_tree_recursively expr = Ok t -> canonical t = true.
Proof.
  apply (build_tree_canonical_from (List.length expr)); [lia | reflexivity].
Qed.

Lemma build_tree_canonical_witness :
  canonical
    (mkNode "or"
       [mkNode "z" [];
        mkNode "and" [mkNode "x" []; mkNode "not" [mkNode "y" []]]])
  = true.
Proof.
  apply (build_tree_canonical
           ["("; "x"; "and"; "("; "not"; "y"; ")"; ")"; "or"; "z"]).
  reflexivity.
Defined.

(** X14: parentheses around a whole expression change nothing: for a
    non-empty expression with balanced parentheses, the builder returns
    the same tree, or raises the same exception, with and without them,
    and so does the validator. *)
Theorem outer_parentheses (dv di e : list string) :
  balanced_from 0 e = true -> e <> [] ->
  build_tree_recursively ("(" :: e ++ [")"]) = build_tree_recursively e /\
  check_valid_recursively dv di ("(" :: e ++ [")"])
  = check_valid_recursively dv di e.
Proof.
  intros Hbal Hne. apply balanced_passes in Hbal.
  unfold build_tree_recursively, check_valid_recursively. split.
  - rewrite build_tree_equation_2. cbn [String.eqb Ascii.eqb Bool.eqb].
    rewrite find_close_group, firstn_group, skipn_group by assumption.
    destruct e as [|a e]; [congruence|].
    destruct (build_tree (a :: e) [] None) as [node|err]; reflexivity.
  - rewrite check_valid_equation_2. cbn [String.eqb Ascii.eqb Bool.eqb].
    replace ((-1 =? 0)%Z) with false by reflexivity.
    rewrite find_close_group, firstn_group, skipn_group by assumption.
    destruct e as [|a e]; [congruence|].
    destruct (check_valid dv di (a :: e) (-1) None) as [[]|err];
      reflexivity.
Qed.

Lemma outer_parentheses_witness :
  build_tree_recursively ["("; "("; "x"; ")"; "or"; "y"; ")"]
  = build_tree_recursively ["("; "x"; ")"; "or"; "y"] /\
  check_valid_recursively ["x"; "y"] [] ["("; "("; "x"; ")"; "or"; "y"; ")"]
  = check_valid_recursively ["x"; "y"] [] ["("; "x"; ")"; "or"; "y"].
Proof.
  apply (outer_parentheses ["x"; "y"] [] ["("; "x"; ")"; "or"; "y"]).
  - reflexivity.
  - discriminate.
Defined.

(** ** The validator, again *)

Section ValidatedFacts.

Variables dv di : list string.

Lemma derives_known (s : shape) (e : list string) :
  derives dv di s e ->
  forallb (known_token dv di) e = true /\ balanced_from 0 e = true.
Proof.
  assert (Hconn : forall op, op = "and" \/ op = "or" ->
            known_token dv di op = true /\
            String.eqb op "(" = false /\ String.eqb op ")" = false).
  { intros op [-> | ->]; repeat split. }
  induction 1 as
    [ t Ht Ho Hc
    | e He [IHk IHb]
    | op o1 o2 Hop H1 [IHk1 IHb1] H2 [IHk2 IHb2]
    | op o e H1 [IHk1 IHb1] H2 [IHk2 IHb2]
    | o Ho IH
    | o Ho [IHk IHb]
    | e He IH
    | e He IH ]; try assumption.
  - cbn. unfold known_token. rewrite Ht, orb_true_r.
    apply String.eqb_neq in Ho, Hc. now rewrite Ho, Hc.
  - split.
    + cbn [forallb]. rewrite forallb_app, IHk. reflexivity.
    + cbn [balanced_from String.eqb Ascii.eqb Bool.eqb].
      pose proof (balanced_app e [")"] 0 1 IHb) as Hb.
      cbn [Nat.add] in Hb. now rewrite Hb.
  - destruct (Hconn op Hop) as [Hk [Hopen Hclose]]. split.
    + rewrite forallb_app, IHk1. cbn [forallb]. now rewrite Hk, IHk2.
    + pose proof (balanced_app o1 (op :: o2) 0 0 IHb1) as Hb.
      cbn [Nat.add] in Hb. rewrite Hb.
      cbn [balanced_from]. now rewrite Hopen, Hclose.
  - assert (Hop : op = "and" \/ op = "or").
    { clear - H2. remember (Chain op) as s eqn:Hs.
      induction H2; try discriminate; injection Hs as ->; auto. }
    destruct (Hconn op Hop) as [Hk [Hopen Hclose]]. split.
    + rewrite forallb_app, IHk1. cbn [forallb]. now rewrite Hk, IHk2.
    + pose proof (balanced_app o (op :: e) 0 0 IHb1) as Hb.
      cbn [Nat.add] in Hb. rewrite Hb.
      cbn [balanced_from]. now rewrite Hopen, Hclose.
  - split; [cbn [forallb]; now rewrite IHk | exact IHb].
Qed.

Lemma derives_more (dv' di' : list string) (s : shape) (e : list string) :
  (forall t, is_operand dv di t = true -> is_operand dv' di' t = true) ->
  derives dv di s e -> derives dv' di' s e.
Proof.
  intros Hmore. induction 1.
  - apply d_name; auto.
  - now apply d_paren.
  - now apply d_two.
  - now apply d_more.
  - now apply d_single.
  - now apply d_not.
  - now apply d_and.
  - now apply d_or.
Qed.

End ValidatedFacts.

(** X15: a right-hand side that the validator accepts has balanced
    parentheses and holds nothing but parentheses, the three connectives,
    the two literals and declared names: a name that is not declared is
    refused. *)
Theorem validated_tokens (dv di e : list string) :
  check_valid_recursively dv di e = Ok tt ->
  forallb (known_token dv di) e = true /\ balanced_from 0 e = true.
Proof.
  intros H. destruct (check_valid_derives dv di e H) as [-> | He].
  - split; reflexivity.
  - exact (derives_known dv di Expr e He).
Qed.

Lemma validated_tokens_witness :
  forallb (known_token ["x"; "y"] []) ["not"; "("; "x"; "or"; "y"; ")"] = true /\
  balanced_from 0 ["not"; "("; "x"; "or"; "y"; ")"] = true.
Proof.
  apply validated_tokens. reflexivity.
Defined.

(** X16: declaring further names does not invalidate an expression: a
    right-hand side accepted with some declared names is accepted with
    more of them, as long as none of [and], [or], [not] is among them. *)
Theorem validated_with_more_names (dv di dv' di' e : list string) :
  incl dv dv' -> incl di di' ->
  is_operand dv' di' "and" = false ->
  is_operand dv' di' "or" = false ->
  is_operand dv' di' "not" = false ->
  check_valid_recursively dv di e = Ok tt ->
  check_valid_recursively dv' di' e = Ok tt.
Proof.
  intros Hv Hi Hand Hor Hnot H.
  destruct (check_valid_derives dv di e H) as [-> | He]; [reflexivity|].
  apply (derives_more dv di dv' di') in He.
  - destruct (derives_shape dv' di' Hand Hor Hnot _ _ He) as [_ [_ Hacc]].
    exact Hacc.
  - intros t. unfold is_operand. intros Ht.
    apply orb_prop in Ht. destruct Ht as [Ht|Ht]; [|now rewrite Ht, orb_true_r].
    apply orb_prop in Ht. destruct Ht as [Ht|Ht].
    + apply mem_In, Hv, mem_In in Ht. now rewrite Ht.
    + apply mem_In, Hi, mem_In in Ht. now rewrite Ht, orb_true_r.
Qed.

Lemma validated_with_more_names_witness :
  check_valid_recursively ["x"; "y"; "w"] ["z"] ["x"; "and"; "("; "not"; "y"; ")"]
  = Ok tt.
Proof.
  apply (validated_with_more_names ["x"; "y"] [] ["x"; "y"; "w"] ["z"]);
    try reflexivity.
  - intros t Ht. cbn in *. tauto.
  - intros t [].
Defined.

(** X17: a display is accepted exactly when each of its arguments is a
    declared variable or identifier and none is a parenthesis, a
    connective or a literal; it is refused with the exception for an
    unknown identifier and no other. *)
Theorem check_display_shown (names dv di : list string) :
  check_display names dv di
  = if forallb (shown dv di) names then Ok tt else Raise UnknownIdentifier.
Proof.
  induction names as [|t names IH]; cbn [check_display forallb];
    [reflexivity|].
  unfold shown at 1.
  destruct (mem t di), (mem t dv), (mem t not_shown); cbn [negb andb orb];
    (exact IH || reflexivity).
Qed.

(** X18: the depth of a node with children is one more than the depth of
    its shallowest child: it exceeds the depth of no child by more than
    one, and some child has that depth less one; a node without children
    has depth 0. *)
Theorem depth_shallowest (v : string) (c : Node) (cs : list Node) :
  depth (mkNode v []) = 0 /\
  (forall c', In c' (c :: cs) -> depth (mkNode v (c :: cs)) <= S (depth c')) /\
  (exists c', In c' (c :: cs) /\ depth (mkNode v (c :: cs)) = S (depth c')).
Proof.
  split; [reflexivity|]. cbn [depth].
  assert (Hmin : forall l m,
            (fold_left Nat.min (map depth l) m <= m /\
             forall c', In c' l -> fold_left Nat.min (map depth l) m <= depth c')
            /\ (fold_left Nat.min (map depth l) m = m \/
                exists c', In c' l /\
                           fold_left Nat.min (map depth l) m = depth c')).
  { induction l as [|x l IHl]; intros m; cbn [map fold_left].
    - split; [split; [lia | intros c' []] | now left].
    - destruct (IHl (Nat.min m (depth x))) as [[Hle Hall] Hsome]. split.
      + split; [lia|]. intros c' [<-|Hc']; [lia | now apply Hall].
      + destruct Hsome as [Heq|[c' [Hc' Heq]]].
        * destruct (Nat.min_dec m (depth x)) as [Hm|Hm].
          -- left. now rewrite Heq.
          -- right. exists x. split; [now left | now rewrite Heq].
        * right. exists c'. split; [now right | assumption]. }
  destruct (Hmin cs (depth c)) as [[Hle Hall] Hsome]. split.
  - intros c' [<-|Hc']; cbn [Nat.add]; [lia|].
    specialize (Hall c' Hc'). lia.
  - destruct Hsome as [Heq|[c' [Hc' Heq]]].
    + exists c. split; [now left | cbn; now rewrite Heq].
    + exists c'. split; [now right | cbn; now rewrite Heq].
Qed.

(** ** Conjunctions and disjunctions of names *)

Section FlatChains.

Lemma insert_leaf (x : Node) (l : list Node) :
  depth x = 0 -> insert_by_depth x l = x :: l.
Proof.
  intros Hx. destruct l as [|y l]; [reflexivity|].
  cbn [insert_by_depth]. now rewrite Hx.
Qed.

Lemma sorted_leaves (names : list string) :
  sorted_by_depth (map (fun x => mkNode x []) names)
  = map (fun x => mkNode x []) names.
Proof.
  unfold sorted_by_depth. induction names as [|x names IH]; [reflexivity|].
  cbn [map fold_right]. rewrite IH. now apply insert_leaf.
Qed.

Lemma build_tree_leaf (t : string) (rest : list string)
      (children : list Node) (node_type : option string) :
  leaf_token t = true ->
  build_tree (t :: rest) children node_type
  = build_tree rest (children ++ [mkNode t []]) node_type.
Proof.
  unfold leaf_token. cbn [mem existsb]. intros H.
  rewrite build_tree_equation_2. cbn [mem existsb].
  destruct (String.eqb t "("); [discriminate|].
  destruct (String.eqb t ")"); [discriminate|].
  destruct (String.eqb t "not"); [discriminate|].
  destruct (String.eqb t "and"); [discriminate|].
  destruct (String.eqb t "or"); [discriminate|].
  reflexivity.
Qed.

Lemma build_tree_connective (op : string) (rest : list string)
      (children : list Node) (node_type : option string) :
  op = "and" \/ op = "or" -> conflicts node_type op = false ->
  build_tree (op :: rest) children node_type
  = build_tree rest children (Some op).
Proof.
  intros Hop Hconf. rewrite build_tree_equation_2, Hconf.
  assert (Hnt : match node_type with None => Some op | Some _ => node_type end
                = Some op).
  { destruct node_type as [c|]; [|reflexivity]. cbn in Hconf.
    apply negb_false_iff, String.eqb_eq in Hconf. now subst. }
  rewrite Hnt. destruct Hop as [-> | ->]; reflexivity.
Qed.

Lemma build_tree_chain (op : string) (names : list string) :
  op = "and" \/ op = "or" -> forallb leaf_token names = true ->
  names <> [] ->
  forall children,
    build_tree (chain_tokens op names) children (Some op)
    = build_tree [] (children ++ map (fun x => mkNode x []) names) (Some op).
Proof.
  intros Hop. induction names as [|x names IH]; intros Hleaf Hne children;
    [congruence|].
  cbn [forallb] in Hleaf. apply andb_prop in Hleaf. destruct Hleaf as [Hx Hl].
  destruct names as [|y names].
  - cbn [chain_tokens map]. now rewrite build_tree_leaf.
  - change (chain_tokens op (x :: y :: names))
      with (x :: op :: chain_tokens op (y :: names)).
    rewrite build_tree_leaf by assumption.
    rewrite build_tree_connective by (assumption || apply conflicts_same).
    rewrite IH by (assumption || discriminate).
    cbn [map]. now rewrite <- app_assoc.
Qed.

Lemma build_tree_flat (op : string) (names : list string) :
  op = "and" \/ op = "or" -> forallb leaf_token names = true ->
  2 <= List.length names ->
  build_tree_recursively (chain_tokens op names)
  = Ok (mkNode op (map (fun x => mkNode x []) names)).
Proof.
  intros Hop Hleaf Hlen. unfold build_tree_recursively.
  destruct names as [|x [|y names]]; try (cbn in Hlen; lia).
  change (chain_tokens op (x :: y :: names))
    with (x :: op :: chain_tokens op (y :: names)).
  cbn [forallb] in Hleaf. apply andb_prop in Hleaf. destruct Hleaf as [Hx Hl].
  rewrite build_tree_leaf by assumption.
  rewrite build_tree_connective by (assumption || reflexivity).
  rewrite build_tree_chain by (assumption || discriminate).
  rewrite build_tree_equation_1. cbv zeta.
  pose proof (sorted_leaves (x :: y :: names)) as Hs.
  cbn [map app] in Hs |- *. now rewrite Hs.
Qed.

Lemma leaves_forallb (variables : dict bool) (names : list string) :
  forallb (value_of variables) (map (fun x => mkNode x []) names)
  = forallb (value_in variables) names.
Proof.
  induction names as [|x names IH]; [reflexivity|].
  cbn [map forallb]. now rewrite IH.
Qed.

Lemma leaves_existsb (variables : dict bool) (names : list string) :
  existsb (value_of variables) (map (fun x => mkNode x []) names)
  = existsb (value_in variables) names.
Proof.
  induction names as [|x names IH]; [reflexivity|].
  cbn [map existsb]. now rewrite IH.
Qed.

Lemma value_in_bound (variables : dict bool) (x : string) (b : bool) :
  leaf_token x = true -> mem x ["True"; "False"] = false ->
  dict_get variables x = Some b -> value_in variables x = b.
Proof.
  unfold leaf_token, value_in, value_of. cbn [mem existsb].
  intros Hleaf Hlit Hget.
  destruct (String.eqb x "(") eqn:E1; [discriminate|].
  destruct (String.eqb x ")") eqn:E2; [discriminate|].
  destruct (String.eqb x "not") eqn:E3; [discriminate|].
  destruct (String.eqb x "and") eqn:E4; [discriminate|].
  destruct (String.eqb x "or") eqn:E5; [discriminate|].
  destruct (String.eqb x "True") eqn:E6; [discriminate|].
  destruct (String.eqb x "False") eqn:E7; [discriminate|].
  cbn [eval]. rewrite ?E3, ?E4, ?E5, ?E6, ?E7. cbn. rewrite ?E3, ?E4, ?E5, ?E6, ?E7.
  now rewrite Hget.
Qed.

End FlatChains.

(** X19: the tree built for [x1 and x2 and ... xn], with two names or
    more, each a literal or bound in the mapping, is the node [and] over
    the leaves in their order and evaluates to the conjunction of their
    values; the tree built for [x1 or x2 or ... xn] is the node [or] and
    evaluates to their disjunction; and the value of a bound name that is
    no literal is the one the mapping holds. *)
Theorem flat_chain_value (variables : dict bool) (names : list string) :
  2 <= List.length names ->
  forallb leaf_token names = true ->
  Forall (fun x => evaluates variables (mkNode x [])) names ->
  (build_tree_recursively (chain_tokens "and" names)
   = Ok (mkNode "and" (map (fun x => mkNode x []) names)) /\
   eval (mkNode "and" (map (fun x => mkNode x []) names)) variables
   = Ok (forallb (value_in variables) names)) /\
  (build_tree_recursively (chain_tokens "or" names)
   = Ok (mkNode "or" (map (fun x => mkNode x []) names)) /\
   eval (mkNode "or" (map (fun x => mkNode x []) names)) variables
   = Ok (existsb (value_in variables) names)) /\
  (forall x b, In x names -> mem x ["True"; "False"] = false ->
               dict_get variables x = Some b -> value_in variables x = b).
Proof.
  intros Hlen Hleaf Hev.
  assert (Hcs : Forall (evaluates variables)
                       (map (fun x => mkNode x []) names)).
  { apply Forall_map. exact Hev. }
  assert (Hlen' : 2 <= List.length (map (fun x => mkNode x []) names))
    by now rewrite length_map.
  split; [|split].
  - split; [apply build_tree_flat; auto|].
    rewrite (eval_and_values variables _ Hcs Hlen').
    now rewrite leaves_forallb.
  - split; [apply build_tree_flat; auto|].
    rewrite (eval_or_values variables _ Hcs Hlen').
    now rewrite leaves_existsb.
  - intros x b Hin Hlit Hget. apply value_in_bound; try assumption.
    rewrite forallb_forall in Hleaf. now apply Hleaf.
Qed.

Lemma flat_chain_value_witness :
  build_tree_recursively ["a"; "and"; "True"; "and"; "b"]
  = Ok (mkNode "and" [mkNode "a" []; mkNode "True" []; mkNode "b" []]) /\
  eval (mkNode "and" [mkNode "a" []; mkNode "True" []; mkNode "b" []])
       [("a", true); ("b", false)]
  = Ok false.
Proof.
  assert (Hev : Forall (fun x => evaluates [("a", true); ("b", false)]
                                           (mkNode x []))
                       ["a"; "True"; "b"]).
  { repeat constructor; eexists; reflexivity. }
  destruct (flat_chain_value [("a", true); ("b", false)] ["a"; "True"; "b"]
              ltac:(cbn; lia) eq_refl Hev) as [[Hb He] _].
  split; [exact Hb | exact He].
Defined.

(** ** The lexer on a text of tokens *)

Section SpacedText.

Lemma occurs_app (c : ascii) (a b : string) :
  occurs c (a ++ b) = occurs c a || occurs c b.
Proof.
  induction a as [|x a IH]; cbn [append occurs]; [reflexivity|].
  now rewrite IH, orb_assoc.
Qed.

Lemma word_char_not_hash (c : ascii) :
  is_word_char c = true -> Ascii.eqb c "#" = false.
Proof.
  intros H. destruct (Ascii.eqb_spec c "#") as [->|]; [discriminate | reflexivity].
Qed.

Lemma word_chars_no_hash (w : string) :
  all_chars is_word_char w = true -> occurs "#" w = false.
Proof.
  induction w as [|c w IH]; cbn [all_chars occurs]; [reflexivity|].
  intros H. apply andb_prop in H. destruct H as [Hc Hw].
  now rewrite (word_char_not_hash c Hc), IH.
Qed.

Lemma lexeme_cases (t : string) :
  lexeme t = true ->
  In t ["("; ")"; "="; ";"] \/
  exists c w, t = String c w /\ is_word_start c = true /\
              all_chars is_word_char w = true.
Proof.
  unfold lexeme. intros H. apply orb_prop in H. destruct H as [H|H].
  - left. now apply mem_In.
  - right. destruct t as [|c w]; [discriminate|]. cbn [is_word] in H.
    apply andb_prop in H. destruct H as [Hc Hw]. now exists c, w.
Qed.

Lemma lexeme_no_hash (t : string) : lexeme t = true -> occurs "#" t = false.
Proof.
  intros H. destruct (lexeme_cases t H) as [Hin|[c [w [-> [Hc Hw]]]]].
  - cbn [In] in Hin. destruct Hin as [<-|[<-|[<-|[<-|[]]]]]; reflexivity.
  - cbn [occurs]. rewrite (word_chars_no_hash w Hw).
    rewrite word_char_not_hash; [reflexivity|].
    unfold is_word_char. now rewrite Hc.
Qed.

Lemma spaced_no_hash (tokens : list string) :
  forallb lexeme tokens = true -> occurs "#" (spaced tokens) = false.
Proof.
  induction tokens as [|t tokens IH]; cbn [forallb spaced]; [reflexivity|].
  intros H. apply andb_prop in H. destruct H as [Ht Hts].
  rewrite !occurs_app, (lexeme_no_hash t Ht), (IH Hts). reflexivity.
Qed.

Lemma sub_comments_prefix (a x : string) :
  occurs "#" a = false -> sub_comments (a ++ x) = (a ++ sub_comments x)%string.
Proof.
  induction a as [|c a IH]; cbn [append occurs]; [reflexivity|].
  intros H. apply orb_false_elim in H. destruct H as [Hc Ha].
  cbn [sub_comments]. now rewrite Hc, IH.
Qed.

Lemma truthy_append (word x : string) :
  truthy word = true -> truthy (word ++ x) = true.
Proof. destruct word; [discriminate | reflexivity]. Qed.

Lemma tokenize_loop_word_chars (w : string) :
  all_chars is_word_char w = true ->
  forall (rest : string) (tokens : list string) (word : string),
    truthy word = true ->
    tokenize_loop (w ++ rest) tokens word
    = tokenize_loop rest tokens (word ++ w).
Proof.
  induction w as [|c w IH]; cbn [all_chars]; intros H rest tokens word Hword.
  - now rewrite append_nil_r.
  - apply andb_prop in H. destruct H as [Hc Hw].
    cbn [append tokenize_loop]. rewrite Hword, Hc. cbn [negb andb].
    rewrite !andb_false_r. rewrite (IH Hw) by now apply truthy_append.
    now rewrite append_assoc.
Qed.

Lemma tokenize_loop_space (rest : string) (tokens : list string) (word : string) :
  tokenize_loop (String " " rest) tokens word
  = if truthy word then tokenize_loop rest (tokens ++ [word]) ""
    else tokenize_loop rest tokens word.
Proof. reflexivity. Qed.

Lemma tokenize_loop_lexeme (t : string) :
  lexeme t = true ->
  forall (rest : string) (tokens : list string),
    tokenize_loop (t ++ " " ++ rest) tokens ""
    = tokenize_loop rest (tokens ++ [t]) "".
Proof.
  intros H rest tokens.
  destruct (lexeme_cases t H) as [Hin|[c [w [-> [Hc Hw]]]]].
  - cbn [In] in Hin. destruct Hin as [<-|[<-|[<-|[<-|[]]]]]; reflexivity.
  - cbn [append tokenize_loop truthy negb]. rewrite Hc. cbn [andb].
    rewrite (tokenize_loop_word_chars w Hw) by reflexivity.
    now rewrite tokenize_loop_space.
Qed.

Lemma tokenize_loop_spaced (tokens : list string) :
  forallb lexeme tokens = true ->
  forall (x : string) (acc : list string),
    tokenize_loop (spaced tokens ++ x) acc ""
    = tokenize_loop x (acc ++ tokens) "".
Proof.
  induction tokens as [|t tokens IH]; cbn [forallb spaced]; intros H x acc.
  - now rewrite app_nil_r.
  - apply andb_prop in H. destruct H as [Ht Hts].
    rewrite !append_assoc. rewrite (tokenize_loop_lexeme t Ht).
    rewrite (IH Hts). now rewrite <- app_assoc.
Qed.

Lemma digit_classes (c : ascii) :
  is_digit c = true -> is_word_start c = false /\ Ascii.eqb c "#" = false.
Proof.
  unfold is_digit, is_word_start, between. intros H.
  apply andb_prop in H. destruct H as [Hlo Hhi].
  apply Nat.leb_le in Hlo, Hhi. split.
  - destruct (Ascii.eqb_spec c "_") as [->|]; [cbn in Hhi; lia|].
    rewrite orb_false_r. apply orb_false_intro; apply andb_false_intro1;
      apply Nat.leb_gt; lia.
  - destruct (Ascii.eqb_spec c "#") as [->|]; [cbn in Hlo; lia | reflexivity].
Qed.

End SpacedText.

(** X20: the lexer undoes the writing of tokens: on the text made of
    words and characters [(], [)], [=], [;], each followed by one space,
    it returns exactly these tokens, in order. *)
Theorem tokenize_spaced (tokens : list string) :
  forallb lexeme tokens = true -> _tokenize (spaced tokens) = Ok tokens.
Proof.
  intros H. unfold _tokenize.
  rewrite (sub_comments_plain _ (spaced_no_hash tokens H)).
  rewrite <- (append_nil_r (spaced tokens)).
  now rewrite (tokenize_loop_spaced tokens H).
Qed.

Lemma tokenize_spaced_witness :
  _tokenize "z1 = ( x or _y ) ; " = Ok ["z1"; "="; "("; "x"; "or"; "_y"; ")"; ";"].
Proof.
  apply (tokenize_spaced ["z1"; "="; "("; "x"; "or"; "_y"; ")"; ";"]).
  reflexivity.
Defined.

(** X21: a digit that begins a word ends the lexing with the exception
    for a word starting with a digit, whatever follows it: after any
    tokens, each followed by a space, a digit is refused. *)
Theorem tokenize_digit_word (tokens : list string) (d : ascii) (rest : string) :
  forallb lexeme tokens = true -> is_digit d = true ->
  _tokenize (spaced tokens ++ String d rest) = Raise LexDigitWord.
Proof.
  intros H Hd. unfold _tokenize.
  destruct (digit_classes d Hd) as [Hstart Hhash].
  rewrite (sub_comments_prefix _ _ (spaced_no_hash tokens H)).
  cbn [sub_comments]. rewrite Hhash.
  rewrite (tokenize_loop_spaced tokens H).
  cbn [tokenize_loop truthy negb]. now rewrite Hstart, Hd.
Qed.

Lemma tokenize_digit_word_witness :
  _tokenize "var x ; var 2y ; show #" = Raise LexDigitWord.
Proof.
  apply (tokenize_digit_word ["var"; "x"; ";"; "var"] "2" "y ; show #");
    reflexivity.
Defined.

(** ** Parenthesised operands *)

Section Groups.

Lemma build_tree_group (e rest : list string) (children : list Node)
      (node_type : option string) (t : Node) :
  balanced_from 0 e = true -> build_tree_recursively e = Ok t ->
  build_tree ("(" :: e ++ ")" :: rest) children node_type
  = build_tree rest (children ++ [t]) node_type.
Proof.
  intros Hbal Hbuild. apply balanced_passes in Hbal.
  unfold build_tree_recursively in Hbuild.
  rewrite build_tree_equation_2. cbn [String.eqb Ascii.eqb Bool.eqb].
  rewrite find_close_group, firstn_group, skipn_group by assumption.
  destruct e as [|a e].
  - rewrite build_tree_equation_1 in Hbuild. discriminate Hbuild.
  - now rewrite Hbuild.
Qed.

Lemma build_tree_pair (op : string) (e1 e2 : list string) (t1 t2 : Node) :
  op = "and" \/ op = "or" ->
  balanced_from 0 e1 = true -> balanced_from 0 e2 = true ->
  build_tree_recursively e1 = Ok t1 -> build_tree_recursively e2 = Ok t2 ->
  build_tree_recursively ("(" :: e1 ++ ")" :: op :: "(" :: e2 ++ [")"])
  = Ok (mkNode op (sorted_by_depth [t1; t2])).
Proof.
  intros Hop Hb1 Hb2 H1 H2. unfold build_tree_recursively at 1.
  rewrite (build_tree_group e1 _ _ _ t1 Hb1 H1).
  rewrite build_tree_connective by (assumption || reflexivity).
  rewrite (build_tree_group e2 _ _ _ t2 Hb2 H2).
  now rewrite build_tree_equation_1.
Qed.

Lemma eval_pair (variables : dict bool) (op : string) (t1 t2 : Node)
      (b1 b2 : bool) :
  op = "and" \/ op = "or" ->
  eval t1 variables = Ok b1 -> eval t2 variables = Ok b2 ->
  eval (mkNode op (sorted_by_depth [t1; t2])) variables
  = eval (mkNode op [t1; t2]) variables.
Proof.
  intros Hop H1 H2. apply eval_permutation; [assumption | |].
  - apply sorted_by_depth_permutation.
  - repeat constructor; eexists; eassumption.
Qed.

End Groups.

(** X22: the trees of parenthesised operands compose as the connectives
    say: when [e1] and [e2] have balanced parentheses, trees [t1] and
    [t2] and values [b1] and [b2] in a mapping, the tree of [not (e1)]
    is the node [not] over [t1] and has the value [negb b1], the tree of
    [(e1) and (e2)] is the node [and] over the two trees, the shallower
    first, and has the value [b1 && b2], and the tree of [(e1) or (e2)]
    the node [or] with the value [b1 || b2]. *)
Theorem group_semantics (variables : dict bool) (e1 e2 : list string)
        (t1 t2 : Node) (b1 b2 : bool) :
  balanced_from 0 e1 = true -> balanced_from 0 e2 = true ->
  build_tree_recursively e1 = Ok t1 -> build_tree_recursively e2 = Ok t2 ->
  eval t1 variables = Ok b1 -> eval t2 variables = Ok b2 ->
  (build_tree_recursively ("not" :: "(" :: e1 ++ [")"])
   = Ok (mkNode "not" [t1]) /\
   eval (mkNode "not" [t1]) variables = Ok (negb b1)) /\
  (build_tree_recursively ("(" :: e1 ++ ")" :: "and" :: "(" :: e2 ++ [")"])
   = Ok (mkNode "and" (sorted_by_depth [t1; t2])) /\
   eval (mkNode "and" (sorted_by_depth [t1; t2])) variables
   = Ok (b1 && b2)) /\
  (build_tree_recursively ("(" :: e1 ++ ")" :: "or" :: "(" :: e2 ++ [")"])
   = Ok (mkNode "or" (sorted_by_depth [t1; t2])) /\
   eval (mkNode "or" (sorted_by_depth [t1; t2])) variables
   = Ok (b1 || b2)).
Proof.
  intros Hb1 Hb2 H1 H2 He1 He2.
  assert (Hcs : Forall (evaluates variables) [t1; t2])
    by (repeat constructor; eexists; eassumption).
  assert (Hv1 : value_of variables t1 = b1) by (unfold value_of; now rewrite He1).
  assert (Hv2 : value_of variables t2 = b2) by (unfold value_of; now rewrite He2).
  split; [|split].
  - split.
    + unfold build_tree_recursively at 1. rewrite build_tree_equation_2.
      cbn [String.eqb Ascii.eqb Bool.eqb mem existsb orb conflicts].
      rewrite (build_tree_group e1 _ _ _ t1 Hb1 H1).
      now rewrite build_tree_equation_1.
    + change (eval (mkNode "not" [t1]) variables)
        with (match eval t1 variables with
              | Raise e => Raise e
              | Ok b => Ok (negb b)
              end).
      now rewrite He1.
  - split; [apply build_tree_pair; auto|].
    rewrite (eval_pair variables "and" t1 t2 b1 b2) by auto.
    rewrite (eval_and_values variables [t1; t2] Hcs) by (cbn; lia).
    cbn [forallb]. now rewrite Hv1, Hv2, andb_true_r.
  - split; [apply build_tree_pair; auto|].
    rewrite (eval_pair variables "or" t1 t2 b1 b2) by auto.
    rewrite (eval_or_values variables [t1; t2] Hcs) by (cbn; lia).
    cbn [existsb]. now rewrite Hv1, Hv2, orb_false_r.
Qed.

Lemma group_semantics_witness :
  build_tree_recursively
    ["("; "x"; "and"; "y"; "and"; "x"; ")"; "or"; "("; "not"; "y"; ")"]
  = Ok (mkNode "or"
          [mkNode "and" [mkNode "x" []; mkNode "y" []; mkNode "x" []];
           mkNode "not" [mkNode "y" []]]) /\
  eval (mkNode "or"
          [mkNode "and" [mkNode "x" []; mkNode "y" []; mkNode "x" []];
           mkNode "not" [mkNode "y" []]])
       [("x", true); ("y", false)]
  = Ok true.
Proof.
  destruct (group_semantics [("x", true); ("y", false)]
              ["x"; "and"; "y"; "and"; "x"] ["not"; "y"]
              (mkNode "and" [mkNode "x" []; mkNode "y" []; mkNode "x" []])
              (mkNode "not" [mkNode "y" []]) false true
              eq_refl eq_refl eq_refl eq_refl eq_refl eq_refl)
    as [_ [_ [Hb He]]].
  split; [exact Hb | exact He].
Defined.
